(** * HEGN: hierarchical equivariant alignment, embedded from [hegn/models/hegn.py]

    The model code is PyTorch.  Two readings of it are embedded here.

    - A value-level reading over the real numbers of the modules whose
      arithmetic is written out in the file: [InvariantMapping], the attention
      arithmetic of [CrossContext], [Alignment] and [HEGN_Loss].  A tensor axis
      of variable extent (batch, channel, sample, neighbour) is a [list]; the
      axis of extent three that carries a vector is a [vec3].  A feature tensor
      [[C,3,N]] of one batch element is therefore a [list (list vec3)], indexed
      channel first and sample second, the vector axis innermost.
    - A shape-level reading ([Module Shape]) of the whole forward pass, where a
      tensor is its [list nat] of extents and an operation either yields the
      shape of its result or fails as PyTorch does on mismatching extents.

    Float arithmetic is idealised as real arithmetic.  Where the code divides
    by a quantity that can be zero on non-empty tensors the division is
    written with [fdiv], which yields [None] where IEEE division leaves the
    finite numbers (inf or NaN); the denominators of the other divisions are
    shown positive in Part II. *)

From Stdlib Require Import Reals Lra Lia List ZArith Bool Arith.
Import ListNotations.

Open Scope R_scope.

(* ================================================================== *)
(** * Part I: definitions *)
(* ================================================================== *)

(** ** Vectors and matrices of the 3-axis *)

Record vec3 : Type := V3 { vx : R; vy : R; vz : R }.

(** Rows of a 3x3 matrix. *)
Record mat3 : Type := M3 { row0 : vec3; row1 : vec3; row2 : vec3 }.

Definition vzero : vec3 := V3 0 0 0.
Definition vadd (u v : vec3) : vec3 := V3 (vx u + vx v) (vy u + vy v) (vz u + vz v).
Definition vsub (u v : vec3) : vec3 := V3 (vx u - vx v) (vy u - vy v) (vz u - vz v).
Definition vmul (u v : vec3) : vec3 := V3 (vx u * vx v) (vy u * vy v) (vz u * vz v).
Definition vscale (a : R) (v : vec3) : vec3 := V3 (a * vx v) (a * vy v) (a * vz v).
Definition vdivs (v : vec3) (a : R) : vec3 := V3 (vx v / a) (vy v / a) (vz v / a).
Definition vsqrt (v : vec3) : vec3 := V3 (sqrt (vx v)) (sqrt (vy v)) (sqrt (vz v)).
Definition vlist (v : vec3) : list R := [vx v; vy v; vz v].

(** [(u * v).sum()] over the 3-axis. *)
Definition dot (u v : vec3) : R := vx u * vx v + vy u * vy v + vz u * vz v.

(** [torch.norm] over the 3-axis. *)
Definition vnorm (v : vec3) : R := sqrt (dot v v).

Definition mcol0 (m : mat3) : vec3 := V3 (vx (row0 m)) (vx (row1 m)) (vx (row2 m)).
Definition mcol1 (m : mat3) : vec3 := V3 (vy (row0 m)) (vy (row1 m)) (vy (row2 m)).
Definition mcol2 (m : mat3) : vec3 := V3 (vz (row0 m)) (vz (row1 m)) (vz (row2 m)).

(** [m.transpose(2, 1)] of a batch element. *)
Definition mtrans (m : mat3) : mat3 := M3 (mcol0 m) (mcol1 m) (mcol2 m).

(** Matrix times column vector. *)
Definition mulMV (m : mat3) (v : vec3) : vec3 :=
  V3 (dot (row0 m) v) (dot (row1 m) v) (dot (row2 m) v).

(** [torch.matmul] of two 3x3 matrices. *)
Definition mmul (a b : mat3) : mat3 :=
  let row r := V3 (dot r (mcol0 b)) (dot r (mcol1 b)) (dot r (mcol2 b)) in
  M3 (row (row0 a)) (row (row1 a)) (row (row2 a)).

Definition madd (a b : mat3) : mat3 :=
  M3 (vadd (row0 a) (row0 b)) (vadd (row1 a) (row1 b)) (vadd (row2 a) (row2 b)).
Definition msub (a b : mat3) : mat3 :=
  M3 (vsub (row0 a) (row0 b)) (vsub (row1 a) (row1 b)) (vsub (row2 a) (row2 b)).
Definition mzero : mat3 := M3 vzero vzero vzero.

(** [torch.eye(3)]. *)
Definition eye3 : mat3 := M3 (V3 1 0 0) (V3 0 1 0) (V3 0 0 1).

(** The diagonal matrix of a vector, and [m.diagonal(dim1=-2, dim2=-1)]. *)
Definition mdiag (s : vec3) : mat3 := M3 (V3 (vx s) 0 0) (V3 0 (vy s) 0) (V3 0 0 (vz s)).
Definition diagonal (m : mat3) : vec3 := V3 (vx (row0 m)) (vy (row1 m)) (vz (row2 m)).

Definition det3 (m : mat3) : R :=
  let '(M3 (V3 a b c) (V3 d e f) (V3 g h i)) := m in
  a * (e * i - f * h) - b * (d * i - f * g) + c * (d * h - e * g).

(** Frobenius norm, [torch.norm(m, dim=(1, 2))] of a batch element. *)
Definition fnorm (m : mat3) : R :=
  sqrt (dot (row0 m) (row0 m) + dot (row1 m) (row1 m) + dot (row2 m) (row2 m)).

(** Both products of a matrix with its transpose are the identity. *)
Definition orthogonal (m : mat3) : Prop :=
  mmul (mtrans m) m = eye3 /\ mmul m (mtrans m) = eye3.

(** ** Reductions over a list axis *)

Definition sumR (l : list R) : R := fold_right Rplus 0 l.
Definition vsum (l : list vec3) : vec3 := fold_right vadd vzero l.
Definition msum (l : list mat3) : mat3 := fold_right madd mzero l.

(** [torch.mean] over a list axis: the sum divided by the extent.  On an axis
    of extent zero the code has NaN where this total quotient is 0: the
    properties below read the mean of axes that are not empty. *)
Definition meanR (l : list R) : R := sumR l / INR (length l).
Definition vmean (l : list vec3) : vec3 := vdivs (vsum l) (INR (length l)).

(** [torch.norm(f, dim=1)] of a [[C,3]] batch element: the reduction runs over
    the channel axis and leaves one norm per coordinate of the 3-axis. *)
Definition norm_dim1 (f : list vec3) : vec3 := vsqrt (vsum (map (fun v => vmul v v) f)).

(** Division as the floats perform it, read over the reals: a zero denominator
    leaves the finite numbers (IEEE gives inf, or NaN for 0/0). *)
Definition fdiv (a b : R) : option R :=
  if Req_dec_T b 0 then None else Some (a / b).

Fixpoint map2 {A B C : Type} (f : A -> B -> C) (l : list A) (l' : list B) : list C :=
  match l, l' with
  | a :: t, b :: t' => f a b :: map2 f t t'
  | _, _ => []
  end.

(** All-or-nothing collection of fallible results. *)
Fixpoint sequence {A : Type} (l : list (option A)) : option (list A) :=
  match l with
  | [] => Some []
  | None :: _ => None
  | Some a :: t =>
      match sequence t with
      | Some t' => Some (a :: t')
      | None => None
      end
  end.

(** ** Alignment *)

Section Alignment.

(** [torch.linalg.svd] on one 3x3 matrix: it returns [(U, S, Vh)]. *)
Variable svd : mat3 -> mat3 * vec3 * mat3.

(** [torch.einsum('bcd,bce->bde', fx, fy)] of a batch element:
    [H[d][e]] is the sum over the channels [c] of [fx[c][d] * fy[c][e]]. *)
Definition outer (u v : vec3) : mat3 :=
  M3 (vscale (vx u) v) (vscale (vy u) v) (vscale (vz u) v).

Definition cross_covariance (fx fy : list vec3) : mat3 := msum (map2 outer fx fy).

(** [S = torch.norm(fy, dim=1) / torch.norm(fx, dim=1)], elementwise. *)
Definition Alignment_scale (fx fy : list vec3) : list (option R) :=
  map2 fdiv (vlist (norm_dim1 fy)) (vlist (norm_dim1 fx)).

(** [Alignment.forward] on one batch element.  The model covers [fx] and [fy]
    of the same channel extent; where the extents differ (the einsum and the
    division broadcast an extent of one and raise otherwise) it answers
    [None]. *)
Definition Alignment_forward1 (fx fy : list vec3) : option (mat3 * list (option R)) :=
  if Nat.eqb (length fx) (length fy) then
    let H := cross_covariance fx fy in
    let '(u, s, v) := svd H in
    let R := mmul u v in
    let S := Alignment_scale fx fy in
    Some (R, S)
  else None.

(** [Alignment.forward] on a batch: [fx], [fy] of shape [[B,C,3]]. *)
Definition Alignment_forward (fx fy : list (list vec3))
  : option (list mat3 * list (list (option R))) :=
  if Nat.eqb (length fx) (length fy) then
    match sequence (map2 Alignment_forward1 fx fy) with
    | Some rs => Some (map fst rs, map snd rs)
    | None => None
    end
  else None.

End Alignment.

(** The contract of [torch.linalg.svd] on a square real matrix: [U] and [Vh]
    are orthogonal, the singular values are non-negative in descending order,
    and [H = U diag(S) Vh]. *)
Definition svd_spec (H : mat3) (r : mat3 * vec3 * mat3) : Prop :=
  let '(u, s, vh) := r in
  orthogonal u /\ orthogonal vh /\
  vx s >= vy s /\ vy s >= vz s /\ vz s >= 0 /\
  H = mmul (mmul u (mdiag s)) vh.

(** ** Feature tensors of one batch element *)

(** [[C,3,N]]: channel, then sample. *)
Definition feat : Type := list (list vec3).

(** [[C,3,N,K]]: channel, sample, neighbour. *)
Definition gfeat : Type := list (list (list vec3)).

(** Extent of the sample axis. *)
Definition nsamples {A : Type} (f : list (list A)) : nat :=
  match f with
  | [] => 0%nat
  | ch :: _ => length ch
  end.

(** The channel vectors [f[:, :, n]] at sample [n]. *)
Definition at_sample (n : nat) (f : feat) : list vec3 :=
  map (fun ch => nth n ch vzero) f.

(** The tensor indexed sample first: [columns N f] lists [f[:, :, n]] for
    [n < N]. *)
Definition columns (N : nat) (f : feat) : list (list vec3) :=
  map (fun n => at_sample n f) (seq 0 N).

(** Every channel has [N] samples. *)
Definition rectangular {A : Type} (N : nat) (f : list (list A)) : Prop :=
  Forall (fun ch => length ch = N) f.

Definition same_extents {A B : Type} (f : list (list A)) (g : list (list B)) : bool :=
  Nat.eqb (length f) (length g) && Nat.eqb (nsamples f) (nsamples g).

(** [F.softmax(l, dim=-1)] along a list axis, over exact reals: no entry
    rounds to zero, as an entry far below the largest does in float32. *)
Definition softmax (l : list R) : list R :=
  let z := sumR (map exp l) in
  map (fun a => exp a / z) l.

(** ** torch.topk *)

(** The candidate of largest score.  PyTorch leaves the order of equal scores
    open, and which of them it returns varies; here the earliest one wins a
    tie.  No property below depends on the choice among equal scores. *)
Fixpoint argmax (score : nat -> R) (best : nat) (cands : list nat) : nat :=
  match cands with
  | [] => best
  | c :: cs =>
      if Rlt_dec (score best) (score c) then argmax score c cs
      else argmax score best cs
  end.

Fixpoint topk_select (score : nat -> R) (cands : list nat) (k : nat) : list nat :=
  match k with
  | O => []
  | S k' =>
      match cands with
      | [] => []
      | c :: cs =>
          let b := argmax score c cs in
          b :: topk_select score (remove Nat.eq_dec b cands) k'
      end
  end.

(** [torch.topk(l, k, dim=-1)[1]]: the indices of the [k] largest entries, in
    descending order of score; an error when [k] exceeds the extent. *)
Definition topk_indices (l : list R) (k : nat) : option (list nat) :=
  if Nat.leb k (length l)
  then Some (topk_select (fun i => nth i l 0) (seq 0 (length l)) k)
  else None.

(** ** InvariantMapping *)

(** The additive guard [1e-6] of the mean-direction normalisation. *)
Definition eps6 : R := / 1000000.

(** [torch.mean(f, dim=1)]: the mean over the channels, one vector per sample. *)
Definition mean_dim1 (f : feat) : list vec3 :=
  map (fun n => vmean (at_sample n f)) (seq 0 (nsamples f)).

(** [m / (torch.norm(m, dim=1).unsqueeze(1).repeat(1, 3, 1) + 1e-6)]. *)
Definition parallel_dir (m : vec3) : vec3 := vdivs m (vnorm m + eps6).

(** [torch.einsum('bcdn,bdn->bnc', f, par)]: per sample, the projection of
    every channel vector on that sample's direction. *)
Definition project (f : feat) (par : list vec3) : list (list R) :=
  map (fun n => map (fun v => dot v (nth n par vzero)) (at_sample n f))
      (seq 0 (nsamples f)).

(** [torch.einsum('bnc,bnc->bn', phi_x, phi_y)]. *)
Definition inner_rows (phi_x phi_y : list (list R)) : list R :=
  map2 (fun px py => sumR (map2 Rmult px py)) phi_x phi_y.

(** The invariant descriptor [phi] of one feature tensor. *)
Definition invariant_descriptor (f : feat) : list (list R) :=
  let f_mean := mean_dim1 f in
  let f_par := map parallel_dir f_mean in
  project f f_par.

(** The per-sample score [Sc] of lines 83-89. *)
Definition InvariantMapping_scores (fx fy : feat) : list R :=
  let phi_x := invariant_descriptor fx in
  let phi_y := invariant_descriptor fy in
  softmax (inner_rows phi_x phi_y).

(** [f.gather(-1, idx)] with the index expanded over channels and the 3-axis. *)
Definition gather (f : feat) (idx : list nat) : feat :=
  map (fun ch => map (fun i => nth i ch vzero) idx) f.

(** [InvariantMapping.forward] on one batch element.  [Sc.shape[1] // topk] is
    a Python integer division: it raises on [topk = 0].  The model covers
    feature pairs of the same extents; where the extents differ (einsum and
    gather broadcast an axis of extent one and raise otherwise) it answers
    [None]. *)
Definition InvariantMapping_forward1 (fx fy : feat) (topk : nat) : option (feat * feat) :=
  if same_extents fx fy then
    match topk with
    | O => None
    | S _ =>
        let Sc := InvariantMapping_scores fx fy in
        match topk_indices Sc (length Sc / topk) with
        | Some idx => Some (gather fx idx, gather fy idx)
        | None => None
        end
    end
  else None.

(** [InvariantMapping.forward] on a batch. *)
Definition InvariantMapping_forward (fx fy : list feat) (topk : nat)
  : option (list feat * list feat) :=
  if Nat.eqb (length fx) (length fy) then
    match sequence (map2 (fun x y => InvariantMapping_forward1 x y topk) fx fy) with
    | Some rs => Some (map fst rs, map snd rs)
    | None => None
    end
  else None.

(** A global rotation of a feature tensor: every channel vector is multiplied
    by the same matrix. *)
Definition rotate_feat (Rm : mat3) (f : feat) : feat := map (map (mulMV Rm)) f.

(** ** CrossContext *)

(** [view] of a list axis as [n] groups of [m] consecutive entries. *)
Fixpoint chunks {A : Type} (n m : nat) (l : list A) : list (list A) :=
  match n with
  | O => []
  | S n' => firstn m l :: chunks n' m (skipn m l)
  end.

(** The clamp [eps = 1e-12] of [F.normalize]. *)
Definition eps12 : R := / 1000000000000.

(** [F.normalize(x, dim=2)] on one vector: [v / max(norm(v), eps)]. *)
Definition F_normalize3 (v : vec3) : vec3 := vdivs v (Rmax (vnorm v) eps12).

(** [channel_equi_vec_normalize] on the channel vectors of one position:
    unit directions, rescaled by the norm profile normalised across channels. *)
Definition chnorm_column (col : list vec3) : list vec3 :=
  let x_norm := map vnorm col in
  let denom := Rmax (sqrt (sumR (map (fun a => a * a) x_norm))) eps12 in
  map (fun v => vscale (vnorm v / denom) (F_normalize3 v)) col.

(** [channel_equi_vec_normalize] on a [[C,3,N]] tensor, over exact reals. *)
Definition channel_equi_vec_normalize (x : feat) : feat :=
  columns (length x) (map chnorm_column (columns (nsamples x) x)).

(** [channel_equi_vec_normalize] on a [[C,3,N,K]] tensor: the positions are the
    pairs (sample, neighbour). *)
Definition channel_equi_vec_normalize5 (y : gfeat) : gfeat :=
  let N := nsamples y in
  let K := nsamples (hd [] y) in
  let flat := map (@concat vec3) y in
  map (fun ch => chunks N K ch) (channel_equi_vec_normalize flat).

(** [atten.expand(-1, -1, m, -1, -1)] on the channel axis of one head group:
    an axis that already has extent [m] is left as it is, an axis of extent
    one is repeated [m] times, any other extent is an error. *)
Definition expand_group {A : Type} (m : nat) (g : list A) : option (list A) :=
  if Nat.eqb (length g) m then Some g
  else match g with
       | [a] => Some (repeat a m)
       | _ => None
       end.

Section CrossContext.

(** Constructor arguments [atten_multi_head_c] and [k]. *)
Variable atten_multi_head_c : nat.
Variable k_nn : nat.

(** The learned layers and the graph construction, which live outside
    [hegn.py]: [VNLinearLeakyReLU] instances and [get_graph_feature]. *)
Variable vn_mlp_q : feat -> feat.
Variable vn_mlp_k : gfeat -> gfeat.
Variable vn_mlp_v : gfeat -> gfeat.
Variable get_graph_feature : feat -> nat -> gfeat.

(** [qk = (Ky * Qx[..., None]).sum(2)]: one dot product over the 3-axis per
    channel, sample and neighbour. *)
Definition attention_logits (Qx : feat) (Ky : gfeat) : list (list (list R)) :=
  map2 (fun kc qc => map2 (fun kn q => map (fun kv => dot kv q) kn) kc qc) Ky Qx.

(** Lines 57-63: the logits are viewed as head groups, scaled by
    [1/sqrt(3 C)], soft-maxed over the neighbour axis, expanded and viewed
    back as [[C,N,K]].  [C // atten_multi_head_c] raises on a zero divisor;
    the view needs [N_head * atten_multi_head_c = C]. *)
Definition attention_weights (qk : list (list (list R))) : option (list (list (list R))) :=
  let C := length qk in
  match atten_multi_head_c with
  | O => None
  | S _ =>
      let N_head := (C / atten_multi_head_c)%nat in
      if Nat.eqb (N_head * atten_multi_head_c) C then
        let qk := chunks N_head atten_multi_head_c qk in
        let atten := map (map (map (map (fun a => a / sqrt (3 * INR C))))) qk in
        let atten := map (map (map softmax)) atten in
        match sequence (map (expand_group atten_multi_head_c) atten) with
        | Some atten => Some (concat atten)
        | None => None
        end
      else None
  end.

(** [x + (atten * Vy).sum(-1)]. *)
Definition attend (x : feat) (atten : list (list (list R))) (Vy : gfeat) : feat :=
  map2 (fun xc avc =>
          map2 (fun xv av => vadd xv (vsum (map2 vscale (fst av) (snd av))))
               xc avc)
       x
       (map2 (fun ac vc => combine ac vc) atten Vy).

(** [CrossContext.forward] on one batch element.  The model covers operands
    of equal extents; where the extents of [Qx], [Ky], [Vy] and [x] differ
    (the elementwise operations broadcast an axis of extent one and raise
    otherwise) it answers [None]. *)
Definition CrossContext_forward (x y : feat) : option feat :=
  let Qx := channel_equi_vec_normalize (vn_mlp_q x) in
  let y := get_graph_feature y k_nn in
  let Ky := channel_equi_vec_normalize5 (vn_mlp_k y) in
  let Vy := vn_mlp_v y in
  if same_extents Ky Qx && same_extents Ky Vy && same_extents x Vy then
    let qk := attention_logits Qx Ky in
    match attention_weights qk with
    | Some atten => Some (attend x atten Vy)
    | None => None
    end
  else None.

End CrossContext.

(** ** HEGN_Loss *)

(** One batch element of the loss arguments [R, S, t, R_gt, S_gt, t_gt]; the
    scales arrive as 3x3 matrices, the translations as 3-vectors. *)
Record registration : Type := Registration {
  R_pred : mat3; S_pred : mat3; t_pred : vec3;
  R_gt : mat3; S_gt : mat3; t_gt : vec3
}.

(** A point cloud of one batch element. *)
Definition cloud : Type := list vec3.

(** A cloud with at least one point. *)
Definition inhabited_cloud (c : cloud) : Prop := (0 < length c)%nat.

Definition sqdist (p q : vec3) : R := dot (vsub p q) (vsub p q).

(** Squared distance from [p] to its nearest neighbour in [ys]. *)
Definition nearest_sq (p : vec3) (ys : cloud) : R :=
  match ys with
  | [] => 0
  | q :: qs => fold_right (fun q' m => Rmin (sqdist p q') m) (sqdist p q) qs
  end.

(** One direction of the chamfer distance of a pair of clouds: the mean over
    the points of [x] of the squared distance to the nearest point of [y]. *)
Definition cham_dir (x y : cloud) : R := meanR (map (fun p => nearest_sq p y) x).

(** [pytorch3d.loss.chamfer_distance(x, y)[0]] with its default arguments
    (squared L2, mean over points, mean over the batch, both directions), as
    the library documents it: the function is not part of this repository.
    It raises when the two batches differ in size. *)
Definition chamfer_distance (xs ys : list cloud) : option R :=
  if Nat.eqb (length xs) (length ys)
  then Some (meanR (map2 cham_dir xs ys) + meanR (map2 cham_dir ys xs))
  else None.

(** Line 221 on one batch element. *)
Definition L_reg1 (r : registration) : R :=
  let S := diagonal (S_pred r) in
  let S_gt' := diagonal (S_gt r) in
  let R_loss := msub (mmul (mtrans (R_gt r)) (R_pred r)) eye3 in
  (fnorm R_loss) ^ 2 + (vnorm (vsub S S_gt')) ^ 2 + (vnorm (vsub (t_pred r) (t_gt r))) ^ 2.

(** [l.mean()] of a one-axis tensor: the sum divided by the extent.  An empty
    tensor has no finite mean: the quotient 0/0 is NaN. *)
Definition tensor_mean (l : list R) : option R := fdiv (sumR l) (INR (length l)).

(** [HEGN_Loss.forward].  The clouds arrive as [[B,3,N]] and are transposed to
    [[B,N,3]] for the chamfer distance; a [cloud] lists the points either way.
    [t.squeeze()] drops axes of extent one and leaves the 3-vector of every
    batch element; the call [.mean()] on the scalar chamfer distance returns
    it unchanged.  [None] stands for a call that raises or that returns no
    finite triple.  The [registration] record fixes the shapes of [R], [S] and
    [t]: a call with other shapes, which can raise in the code, is not an
    input here. *)
Definition HEGN_Loss_forward (x_aligned y : list cloud) (batch : list registration)
  : option (R * R * R) :=
  let L_reg := map L_reg1 batch in
  match chamfer_distance x_aligned y with
  | Some L_chamfer =>
      match tensor_mean L_reg with
      | Some L_reg_mean => Some (L_reg_mean + L_chamfer, L_reg_mean, L_chamfer)
      | None => None
      end
  | None => None
  end.

(* ------------------------------------------------------------------ *)
(** ** The forward pass read on tensor shapes *)
(* ------------------------------------------------------------------ *)

Module Shape.

Local Open Scope nat_scope.

Definition shape : Type := list nat.

Definition bind {A B : Type} (o : option A) (f : A -> option B) : option B :=
  match o with
  | Some a => f a
  | None => None
  end.

Notation "x <- c ;; k" := (bind c (fun x => k))
  (at level 61, c at next level, right associativity).
Notation "' p <- c ;; k" := (bind c (fun x => match x with p => k end))
  (at level 61, p pattern, c at next level, right associativity).

(** *** PyTorch primitives *)

Definition numel (s : shape) : nat := fold_right Nat.mul 1 s.

(** Broadcasting of one pair of extents. *)
Definition bdim (a b : nat) : option nat :=
  if a =? b then Some a
  else if a =? 1 then Some b
  else if b =? 1 then Some a
  else None.

(** Broadcasting of two shapes whose extents are listed last axis first. *)
Fixpoint broadcast_rev (s t : shape) : option shape :=
  match s, t with
  | [], _ => Some t
  | _, [] => Some s
  | a :: s', b :: t' =>
      d <- bdim a b ;;
      r <- broadcast_rev s' t' ;;
      Some (d :: r)
  end.

(** The shape of an elementwise operation ([*], [/], [+], [-]). *)
Definition broadcast (s t : shape) : option shape :=
  r <- broadcast_rev (rev s) (rev t) ;; Some (rev r).

(** [t.unsqueeze(d)] for [d >= 0]. *)
Definition unsqueeze (d : nat) (s : shape) : option shape :=
  if d <=? length s then Some (firstn d s ++ 1 :: skipn d s) else None.

(** A reduction over axis [d] ([sum], [mean], [norm] without keepdim). *)
Definition reduce_dim (d : nat) (s : shape) : option shape :=
  if d <? length s then Some (firstn d s ++ skipn (S d) s) else None.

(** A reduction over the last axis, with and without [keepdim]. *)
Definition reduce_last (keepdim : bool) (s : shape) : option shape :=
  match s with
  | [] => None
  | _ :: _ => Some (if keepdim then removelast s ++ [1] else removelast s)
  end.

(** [t.expand(sizes)] for as many sizes as axes; [None] is the size [-1]. *)
Fixpoint expand (sizes : list (option nat)) (s : shape) : option shape :=
  match sizes, s with
  | [], [] => Some []
  | None :: sizes', a :: s' => r <- expand sizes' s' ;; Some (a :: r)
  | Some m :: sizes', a :: s' =>
      if (a =? m) || (a =? 1) then r <- expand sizes' s' ;; Some (m :: r)
      else None
  | _, _ => None
  end.

(** [t.repeat(reps)] for as many repetitions as axes. *)
Fixpoint repeat_ (reps : list nat) (s : shape) : option shape :=
  match reps, s with
  | [], [] => Some []
  | r :: reps', a :: s' => t <- repeat_ reps' s' ;; Some (r * a :: t)
  | _, _ => None
  end.

(** [t.view(target)]: the element counts must agree. *)
Definition view (target : shape) (s : shape) : option shape :=
  if numel s =? numel target then Some target else None.

Fixpoint shape_eqb (s t : shape) : bool :=
  match s, t with
  | [], [] => true
  | a :: s', b :: t' => (a =? b) && shape_eqb s' t'
  | _, _ => false
  end.

(** [torch.cat(ts, dim=1)]: every tensor has an axis 1 and all agree on the
    other axes; the extents of axis 1 add up. *)
Fixpoint cat_dim1_from (b : nat) (c : nat) (rest : shape) (ts : list shape) : option shape :=
  match ts with
  | [] => Some (b :: c :: rest)
  | (b' :: c' :: rest') :: ts' =>
      if (b =? b') && shape_eqb rest rest' then cat_dim1_from b (c + c') rest ts'
      else None
  | _ :: _ => None
  end.

Definition cat_dim1 (ts : list shape) : option shape :=
  match ts with
  | (b :: c :: rest) :: ts' => cat_dim1_from b c rest ts'
  | _ => None
  end.

(** [torch.einsum('bcdn,bdn->bnc', f, par)]. *)
Definition einsum_bcdn_bdn_bnc (f par : shape) : option shape :=
  match f, par with
  | [b; c; d; n], [b'; d'; n'] =>
      b0 <- bdim b b' ;; _ <- bdim d d' ;; n0 <- bdim n n' ;; Some [b0; n0; c]
  | _, _ => None
  end.

(** [torch.einsum('bnc,bnc->bn', p, q)]. *)
Definition einsum_bnc_bnc_bn (p q : shape) : option shape :=
  match p, q with
  | [b; n; c], [b'; n'; c'] =>
      b0 <- bdim b b' ;; n0 <- bdim n n' ;; _ <- bdim c c' ;; Some [b0; n0]
  | _, _ => None
  end.

(** [torch.einsum('bcd,bce->bde', fx, fy)]. *)
Definition einsum_bcd_bce_bde (fx fy : shape) : option shape :=
  match fx, fy with
  | [b; c; d], [b'; c'; e] =>
      b0 <- bdim b b' ;; _ <- bdim c c' ;; Some [b0; d; e]
  | _, _ => None
  end.

(** [torch.linalg.svd] on a batch of matrices: [(U, S, Vh)]. *)
Definition svd (h : shape) : option (shape * shape * shape) :=
  match h with
  | [b; m; n] => Some ([b; m; m], [b; Nat.min m n], [b; n; n])
  | _ => None
  end.

(** [torch.matmul] on two batches of matrices. *)
Definition matmul (a b : shape) : option shape :=
  match a, b with
  | [ba; p; q], [bb; q'; r] =>
      if q =? q' then b0 <- bdim ba bb ;; Some [b0; p; r] else None
  | _, _ => None
  end.

(** [torch.topk(s, k, dim=-1)[1]]. *)
Definition topk_last (k : nat) (s : shape) : option shape :=
  match rev s with
  | [] => None
  | n :: r => if k <=? n then Some (rev (k :: r)) else None
  end.

Fixpoint all_le (s t : shape) : bool :=
  match s, t with
  | [], [] => true
  | a :: s', b :: t' => (a <=? b) && all_le s' t'
  | _, _ => false
  end.

(** [t.gather(-1, idx)]: same number of axes, and the index is no larger
    than the tensor on every axis but the last; the result has the shape of
    the index.  The values of the index are not part of a shape: an index
    past the last axis of [t], which raises in the code, is not seen here. *)
Definition gather_last (t idx : shape) : option shape :=
  match t, idx with
  | _ :: _, _ :: _ =>
      if all_le (removelast idx) (removelast t) then Some idx else None
  | _, _ => None
  end.

(** *** Layers defined outside [hegn.py] *)

(** Modelled from the spec: [VNLinearLeakyReLU(c_in, c_out)] of
    [hegn.models.vn_layers] is missing; section 4.1 gives its contract: an
    input [[B, C_in, 3, ...]] yields [[B, C_out, 3, ...]]. *)
Definition VNLinearLeakyReLU (c_in c_out : nat) (s : shape) : option shape :=
  match s with
  | b :: c :: 3 :: rest => if c =? c_in then Some (b :: c_out :: 3 :: rest) else None
  | _ => None
  end.

(** Modelled from the spec: [get_graph_feature(x, k)] of
    [hegn.utils.vn_dgcnn_util] is missing; sections 4.2 and 8 give its
    shape: an input [[B,C,3,N]] yields [[B,2C,3,N,k]], the [k] neighbours
    being taken among the [N] samples.  The model covers [k <= N]; what
    the function does with a larger [k] (the spec speaks of clamping) is not
    modelled, and the answer there is [None]. *)
Definition get_graph_feature (s : shape) (k : nat) : option shape :=
  match s with
  | [b; c; 3; n] => if k <=? n then Some [b; 2 * c; 3; n; k] else None
  | _ => None
  end.

(** Modelled from the spec: [VNDGCNN(in_feat, out_feat, k, pooling)] of
    [hegn.models.vn_dgcnn] is missing; section 4.3 describes it as graph
    feature, vector-linear and pooling stages that give one descriptor of
    [out_feat] channels per point. *)
Definition VNDGCNN (in_feat out_feat k : nat) (s : shape) : option shape :=
  match s with
  | [b; c; 3; n] =>
      if (c =? in_feat) && (k <=? n) then Some [b; out_feat; 3; n] else None
  | _ => None
  end.

(** Modelled from the spec: [mean_pool(x, dim=-1, keepdim=False)] of
    [hegn.models.vn_layers] is missing; section 4.1 gives it as the
    arithmetic mean over the sample axis. *)
Definition mean_pool (keepdim : bool) (s : shape) : option shape :=
  reduce_last keepdim s.

(** *** Modules of [hegn.py] *)

(** [channel_equi_vec_normalize]: asserts [x.ndim >= 3]; the shape is kept. *)
Definition channel_equi_vec_normalize (s : shape) : option shape :=
  if 3 <=? length s then Some s else None.

(** [CrossContext(feature_dim, atten_multi_head_c, k).forward(x, y)].  The
    division by [sqrt(3 C)], the soft-max and [contiguous] keep the shape. *)
Definition CrossContext_forward (feature_dim atten_multi_head_c k : nat) (x y : shape)
  : option shape :=
  q <- VNLinearLeakyReLU feature_dim feature_dim x ;;
  Qx <- channel_equi_vec_normalize q ;;
  y <- get_graph_feature y k ;;
  ky <- VNLinearLeakyReLU (2 * feature_dim) feature_dim y ;;
  Ky <- channel_equi_vec_normalize ky ;;
  Vy <- VNLinearLeakyReLU (2 * feature_dim) feature_dim y ;;
  Qx1 <- unsqueeze (length Qx) Qx ;;
  prod <- broadcast Ky Qx1 ;;
  qk <- reduce_dim 2 prod ;;
  match qk with
  | [B; C; N; K] =>
      match atten_multi_head_c with
      | O => None
      | S _ =>
          let N_head := C / atten_multi_head_c in
          qk <- view [B; N_head; atten_multi_head_c; N; K] qk ;;
          atten <- expand [None; None; Some atten_multi_head_c; None; None] qk ;;
          atten <- view [B; C; N; K] atten ;;
          atten <- unsqueeze 2 atten ;;
          av <- broadcast atten Vy ;;
          s <- reduce_last false av ;;
          broadcast x s
      end
  | _ => None
  end.

(** [GlobalContext(mlp_in, mlp_out).forward(fx)]. *)
Definition GlobalContext_forward (mlp_in mlp_out : nat) (fx : shape) : option shape :=
  p <- mean_pool true fx ;;
  Fx <- expand (map Some fx) p ;;
  c <- cat_dim1 [fx; Fx] ;;
  VNLinearLeakyReLU mlp_in mlp_out c.

(** [f_mean / (torch.norm(f_mean, dim=1).unsqueeze(1).repeat(1, f_mean.size(1), 1)
    + 1e-6)]. *)
Definition parallel_dir (f_mean : shape) : option shape :=
  nrm <- reduce_dim 1 f_mean ;;
  u <- unsqueeze 1 nrm ;;
  d <- nth_error f_mean 1 ;;
  r <- repeat_ [1; d; 1] u ;;
  broadcast f_mean r.

(** [InvariantMapping.forward(fx, fy, topk)]. *)
Definition InvariantMapping_forward (fx fy : shape) (topk : nat) : option (shape * shape) :=
  fx_mean <- reduce_dim 1 fx ;;
  fy_mean <- reduce_dim 1 fy ;;
  fx_par <- parallel_dir fx_mean ;;
  fy_par <- parallel_dir fy_mean ;;
  phi_x <- einsum_bcdn_bdn_bnc fx fx_par ;;
  phi_y <- einsum_bcdn_bdn_bnc fy fy_par ;;
  Sc <- einsum_bnc_bnc_bn phi_x phi_y ;;
  n <- nth_error Sc 1 ;;
  match topk with
  | O => None
  | S _ =>
      idx <- topk_last (n / topk) Sc ;;
      match fx with
      | [b; c; n; s] =>
          idx <- unsqueeze 1 idx ;;
          idx <- unsqueeze 2 idx ;;
          idx <- expand [None; Some c; Some 3; None] idx ;;
          fx <- gather_last fx idx ;;
          fy <- gather_last fy idx ;;
          Some (fx, fy)
      | _ => None
      end
  end.

(** [HierarchicalAggregation(in_feat, out_feat).forward(blocks)]. *)
Definition HierarchicalAggregation_forward (in_feat out_feat : nat) (blocks : list shape)
  : option shape :=
  c <- cat_dim1 blocks ;;
  VNLinearLeakyReLU in_feat out_feat c.

(** [Alignment.forward(fx, fy)]. *)
Definition Alignment_forward (fx fy : shape) : option (shape * shape) :=
  H <- einsum_bcd_bce_bde fx fy ;;
  '(u, s, v) <- svd H ;;
  R <- matmul u v ;;
  ny <- reduce_dim 1 fy ;;
  nx <- reduce_dim 1 fx ;;
  S <- broadcast ny nx ;;
  Some (R, S).

(** [EquivariantFeatureExtraction(in_feat, out_feat, k)]. *)
Record EquivariantFeatureExtraction : Type := EFE {
  efe_in : nat; efe_out : nat; efe_k : nat
}.

Definition EquivariantFeatureExtraction_forward (m : EquivariantFeatureExtraction)
    (x y : shape) : option (shape * shape) :=
  fx <- VNDGCNN (efe_in m) (efe_out m) (efe_k m) x ;;
  fy <- VNDGCNN (efe_in m) (efe_out m) (efe_k m) y ;;
  fx <- CrossContext_forward (efe_out m) 16 (efe_k m) fx fy ;;
  fy <- CrossContext_forward (efe_out m) 16 (efe_k m) fy fx ;;
  fx <- GlobalContext_forward (efe_out m * 2) (efe_out m) fx ;;
  fy <- GlobalContext_forward (efe_out m * 2) (efe_out m) fy ;;
  Some (fx, fy).

(** The fields of [args] that [HEGN.__init__] reads. *)
Record Args : Type := {
  n_knn : list nat;
  num_blocks : Z;
  topk : list nat;
  vngcnn_in : list nat;
  vngcnn_out : list nat
}.

Record HEGN : Type := {
  self_num_blocks : Z;
  self_topk : list nat;
  feature_extraction1 : EquivariantFeatureExtraction;
  feature_extraction2 : EquivariantFeatureExtraction;
  feature_extraction3 : EquivariantFeatureExtraction;
  feature_extraction4 : EquivariantFeatureExtraction;
  hierarchical_in : nat;
  hierarchical_out : nat
}.

(** [HEGN.__init__]: indexing a sequence past its end raises.  The
    constructors of the layers defined outside [hegn.py] are taken to
    return. *)
Definition HEGN_init (args : Args) : option HEGN :=
  let efe i :=
    a <- nth_error (vngcnn_in args) i ;;
    b <- nth_error (vngcnn_out args) i ;;
    c <- nth_error (n_knn args) i ;;
    Some (EFE a b c) in
  fe1 <- efe 0 ;;
  fe2 <- efe 1 ;;
  fe3 <- efe 2 ;;
  fe4 <- efe 3 ;;
  _ <- nth_error (vngcnn_out args) 0 ;;
  out_last <- nth_error (rev (vngcnn_out args)) 0 ;;
  Some {| self_num_blocks := num_blocks args;
          self_topk := topk args;
          feature_extraction1 := fe1;
          feature_extraction2 := fe2;
          feature_extraction3 := fe3;
          feature_extraction4 := fe4;
          hierarchical_in := list_sum (vngcnn_out args);
          hierarchical_out := out_last |}.

(** [l[i] = v] on a Python list. *)
Fixpoint set_nth {A : Type} (i : nat) (v : A) (l : list A) : option (list A) :=
  match i, l with
  | O, _ :: t => Some (v :: t)
  | S i', a :: t => t' <- set_nth i' v t ;; Some (a :: t')
  | _, [] => None
  end.

(** Lines 197-199: [for i in range(self.num_blocks)], pooling [fx_block[i]]
    and [fy_block[i]] in place. *)
Fixpoint pool_blocks (range : list nat) (fx_block fy_block : list shape)
  : option (list shape * list shape) :=
  match range with
  | [] => Some (fx_block, fy_block)
  | i :: range' =>
      fx <- nth_error fx_block i ;;
      px <- mean_pool false fx ;;
      fx_block <- set_nth i px fx_block ;;
      fy <- nth_error fy_block i ;;
      py <- mean_pool false fy ;;
      fy_block <- set_nth i py fy_block ;;
      pool_blocks range' fx_block fy_block
  end.

(** [range(n)] for a Python integer: empty when [n <= 0]. *)
Definition range (n : Z) : list nat := seq 0 (Z.to_nat n).

(** One numbered block of [HEGN.forward]: feature extraction, then invariant
    mapping with [self.topk[i]]. *)
Definition block (self : HEGN) (fe : EquivariantFeatureExtraction) (i : nat)
    (fx fy : shape) : option (shape * shape) :=
  '(fx, fy) <- EquivariantFeatureExtraction_forward fe fx fy ;;
  t <- nth_error (self_topk self) i ;;
  InvariantMapping_forward fx fy t.

(** [HEGN.forward(x, y)]: the shapes of the returned [(R, S)]. *)
Definition HEGN_forward (self : HEGN) (x y : shape) : option (shape * shape) :=
  fx <- unsqueeze 1 x ;;
  fy <- unsqueeze 1 y ;;
  '(fx1, fy1) <- block self (feature_extraction1 self) 0 fx fy ;;
  '(fx2, fy2) <- block self (feature_extraction2 self) 1 fx1 fy1 ;;
  '(fx3, fy3) <- block self (feature_extraction3 self) 2 fx2 fy2 ;;
  '(fx4, fy4) <- block self (feature_extraction4 self) 3 fx3 fy3 ;;
  let fx_block := [fx1; fx2; fx3; fx4] in
  let fy_block := [fy1; fy2; fy3; fy4] in
  '(fx_block, fy_block) <- pool_blocks (range (self_num_blocks self)) fx_block fy_block ;;
  fx <- HierarchicalAggregation_forward (hierarchical_in self) (hierarchical_out self) fx_block ;;
  fy <- HierarchicalAggregation_forward (hierarchical_in self) (hierarchical_out self) fy_block ;;
  Alignment_forward fx fy.

(** Construction followed by one forward pass. *)
Definition HEGN_run (args : Args) (x y : shape) : option (shape * shape) :=
  self <- HEGN_init args ;;
  HEGN_forward self x y.

End Shape.

(** ** Statements of the specification kept for comparison *)

(** The scale as section 4.8 words it: one norm per channel, taken over the
    3-axis of that channel's vector. *)
Definition per_row_scale (fx fy : list vec3) : list (option R) :=
  map2 (fun y x => fdiv (vnorm y) (vnorm x)) fy fx.

(** The attention the specification describes: within a head group the logits
    of the group's channels are summed into one score per sample and
    neighbour, and every channel of the group receives the soft-max of that
    one score. *)
Definition add_rows (a b : list (list R)) : list (list R) := map2 (map2 Rplus) a b.

Definition head_score (group : list (list (list R))) : list (list R) :=
  match group with
  | [] => []
  | g :: gs => fold_right add_rows g gs
  end.

Definition shared_head_weights (head_c : nat) (qk : list (list (list R)))
  : list (list (list R)) :=
  let C := length qk in
  concat (map (fun group =>
                 let w := map (fun row => softmax (map (fun a => a / sqrt (3 * INR C)) row))
                              (head_score group) in
                 repeat w (length group))
              (chunks (C / head_c) head_c qk)).

(** The registration loss as the specification words it: the sums of squares
    themselves, with no square root taken and squared again. *)
Definition sq_frobenius (m : mat3) : R :=
  dot (row0 m) (row0 m) + dot (row1 m) (row1 m) + dot (row2 m) (row2 m).

Definition registration_loss_spec (r : registration) : R :=
  sq_frobenius (msub (mmul (mtrans (R_gt r)) (R_pred r)) eye3)
  + dot (vsub (diagonal (S_pred r)) (diagonal (S_gt r)))
        (vsub (diagonal (S_pred r)) (diagonal (S_gt r)))
  + dot (vsub (t_pred r) (t_gt r)) (vsub (t_pred r) (t_gt r)).

(** The registration loss as section 4.9 words it, written out entry by entry:
    the nine squared entries of [R_gt^T R - I], the three squared differences
    of the diagonal entries of the scale matrices, the three squared
    differences of the translation coordinates; and the average over the
    batch as the total divided by the batch size. *)
Definition coordinate (v : vec3) (i : nat) : R :=
  match i with
  | O => vx v
  | S O => vy v
  | _ => vz v
  end.

Definition entry (m : mat3) (i j : nat) : R :=
  match i with
  | O => coordinate (row0 m) j
  | S O => coordinate (row1 m) j
  | _ => coordinate (row2 m) j
  end.

Definition sum3 (f : nat -> R) : R := f 0%nat + f 1%nat + f 2%nat.

Definition kronecker (i j : nat) : R := if Nat.eqb i j then 1 else 0.

Definition registration_loss_entries (r : registration) : R :=
  sum3 (fun i => sum3 (fun j =>
    (sum3 (fun k => entry (R_gt r) k i * entry (R_pred r) k j) - kronecker i j) ^ 2))
  + sum3 (fun i => (entry (S_pred r) i i - entry (S_gt r) i i) ^ 2)
  + sum3 (fun i => (coordinate (t_pred r) i - coordinate (t_gt r) i) ^ 2).

Fixpoint total (l : list R) : R :=
  match l with
  | [] => 0
  | a :: l' => a + total l'
  end.

Definition batch_average (l : list R) : option R :=
  match l with
  | [] => None
  | _ :: _ => Some (total l / INR (length l))
  end.

(** The norm over the channel axis of one coordinate of the 3-axis. *)
Definition axis_norm (coord : vec3 -> R) (f : list vec3) : R :=
  sqrt (sumR (map (fun v => coord v * coord v) f)).

(** The rotation [Alignment.forward] returns for one batch element. *)
Definition alignment_rotation (svd : mat3 -> mat3 * vec3 * mat3) (fx fy : list vec3) : mat3 :=
  let '(u, _, vh) := svd (cross_covariance fx fy) in mmul u vh.

(** What section 4.6 asks of the indices selected among the [N] samples of a
    feature pair: [floor(N / topk)] of them, distinct, in range, and none of
    the samples left out scores higher than a selected one. *)
Definition top_selection (fx fy : feat) (topk : nat) (idx : list nat) : Prop :=
  length idx = (nsamples fx / topk)%nat
  /\ NoDup idx
  /\ Forall (fun i => (i < nsamples fx)%nat) idx
  /\ (forall i j, In i idx -> (j < nsamples fx)%nat -> ~ In j idx ->
        nth j (InvariantMapping_scores fx fy) 0
        <= nth i (InvariantMapping_scores fx fy) 0).

(** A prediction that equals its ground truth, the rotation being
    orthonormal. *)
Definition exact_prediction (r : registration) : Prop :=
  R_pred r = R_gt r /\ S_pred r = S_gt r /\ t_pred r = t_gt r /\ orthogonal (R_gt r).

(** ** Concrete inputs of the examples *)

Definition e1 : vec3 := V3 1 0 0.
Definition e2 : vec3 := V3 0 1 0.
Definition e3 : vec3 := V3 0 0 1.

(** Three channels: the unit vectors, and the unit vectors with the last one
    mirrored. *)
Definition unit_frame : list vec3 := [e1; e2; e3].
Definition mirrored_frame : list vec3 := [e1; e2; V3 0 0 (-1)].

(** A decomposition routine that answers [I, (1,1,1), I] whatever it is
    given; it is a singular value decomposition of the identity matrix. *)
Definition svd_of_identity (_ : mat3) : mat3 * vec3 * mat3 := (eye3, V3 1 1 1, eye3).

(** A decomposition routine that answers [I, (1,1,1), diag(1,1,-1)]; it is a
    singular value decomposition of [diag(1,1,-1)]. *)
Definition svd_of_mirror (_ : mat3) : mat3 * vec3 * mat3 :=
  (eye3, V3 1 1 1, mdiag (V3 1 1 (-1))).

(** Three channels whose vectors are the unit frame permuted and stretched. *)
Definition stretched_frame : list vec3 := [V3 0 2 0; V3 1 0 0; V3 0 0 1].

(** The quarter turn about the third axis. *)
Definition quarter_turn_z : mat3 := M3 (V3 0 (-1) 0) (V3 1 0 0) (V3 0 0 1).

(** Two channels over three samples, for both clouds. *)
Definition small_fx : feat := [[V3 1 0 0; V3 0 2 0; V3 1 1 1]; [V3 0 1 0; V3 0 0 3; V3 2 0 1]].
Definition small_fy : feat := [[V3 0 1 0; V3 2 0 0; V3 1 0 1]; [V3 1 1 0; V3 0 3 0; V3 0 2 1]].

(** Attention logits [qk] of two channels, one sample and two neighbours: the
    first channel does not tell the neighbours apart, the second prefers the
    first neighbour. *)
Definition head_logits : list (list (list R)) := [[[0; 0]]; [[1; 0]]].

(** A batch of one exact prediction, and a batch of one two-point cloud. *)
Definition exact_registration : registration :=
  Registration quarter_turn_z eye3 e1 quarter_turn_z eye3 e1.
Definition two_points : list cloud := [[e1; e2]].

(** A configuration of four blocks: 16 neighbours (4 in the last block, where
    16 points are left), a quarter of the points kept per block, channel
    widths 16, 32, 64, 128. *)
Definition four_block_args : Shape.Args :=
  {| Shape.n_knn := [16; 16; 16; 4]%nat;
     Shape.num_blocks := 4%Z;
     Shape.topk := [4; 4; 4; 4]%nat;
     Shape.vngcnn_in := [1; 16; 32; 64]%nat;
     Shape.vngcnn_out := [16; 32; 64; 128]%nat |}.

(** The same widths for clouds of three points: two neighbours, every point
    kept in every block. *)
Definition three_point_args : Shape.Args :=
  {| Shape.n_knn := [2; 2; 2; 2]%nat;
     Shape.num_blocks := 4%Z;
     Shape.topk := [1; 1; 1; 1]%nat;
     Shape.vngcnn_in := [1; 16; 32; 64]%nat;
     Shape.vngcnn_out := [16; 32; 64; 128]%nat |}.

(** ** Inputs and transformations of the further properties *)

(** A configuration of three blocks only. *)
Definition three_block_args : Shape.Args :=
  {| Shape.n_knn := [16; 16; 16]%nat;
     Shape.num_blocks := 3%Z;
     Shape.topk := [4; 4; 4]%nat;
     Shape.vngcnn_in := [1; 16; 32]%nat;
     Shape.vngcnn_out := [16; 32; 64]%nat |}.

(** The three rows of a matrix as three channel vectors. *)
Definition frame_rows (F : mat3) : list vec3 := [row0 F; row1 F; row2 F].

(** Every channel vector turned by [Q], as [rotate_feat] turns it ([v] goes to
    [Q v]), and stretched by [c]: the descriptors of a cloud moved by [Q] and
    scaled by [c]. *)
Definition similar_image (c : R) (Q : mat3) (f : list vec3) : list vec3 :=
  map (fun v => vscale c (mulMV Q v)) f.

(** A decomposition routine that answers [Q^T (2,2,2) I] for the quarter turn
    [Q]; it is a singular value decomposition of [2 Q^T]. *)
Definition svd_of_double_turn (_ : mat3) : mat3 * vec3 * mat3 :=
  (mtrans quarter_turn_z, V3 2 2 2, eye3).

(** A prediction whose scale matrices carry entries off the diagonal. *)
Definition sheared_registration : registration :=
  Registration quarter_turn_z (M3 (V3 1 5 0) (V3 0 1 0) (V3 7 0 1)) e1
               quarter_turn_z (M3 (V3 1 0 0) (V3 0 1 9) (V3 0 0 1)) e1.

(** Two batch elements that differ at most off the diagonals of their scale
    matrices. *)
Definition same_up_to_shear (r r' : registration) : Prop :=
  R_pred r = R_pred r' /\ R_gt r = R_gt r'
  /\ t_pred r = t_pred r' /\ t_gt r = t_gt r'
  /\ diagonal (S_pred r) = diagonal (S_pred r')
  /\ diagonal (S_gt r) = diagonal (S_gt r').

(** A global rotation of a graph feature tensor. *)
Definition rotate_gfeat (Rm : mat3) (g : gfeat) : gfeat := map (map (map (mulMV Rm))) g.

(** A layer or a graph construction that commutes with the matrix [Rm] applied
    to every vector. *)
Definition equivariant_layer (Rm : mat3) (l : feat -> feat) : Prop :=
  forall f, l (rotate_feat Rm f) = rotate_feat Rm (l f).

Definition equivariant_glayer (Rm : mat3) (l : gfeat -> gfeat) : Prop :=
  forall g, l (rotate_gfeat Rm g) = rotate_gfeat Rm (l g).

Definition equivariant_graph (Rm : mat3) (gg : feat -> nat -> gfeat) : Prop :=
  forall f k, gg (rotate_feat Rm f) k = rotate_gfeat Rm (gg f k).

(** Stand-ins for the learned layers in the examples: the identity, and a
    graph in which every point has itself as its [k] neighbours. *)
Definition identity_layer {A : Type} (f : A) : A := f.
Definition self_graph (f : feat) (k : nat) : gfeat := map (map (fun v => repeat v k)) f.

(** ** GlobalContext and EquivariantFeatureExtraction on values *)

(** [GlobalContext.forward] on one batch element, over the learned layer
    [vn_mlp].  Modelled from the spec: [mean_pool] of [hegn.models.vn_layers]
    is missing; section 4.1 gives it as the arithmetic mean over the sample
    axis.  The pooled vector of every channel is expanded over the samples of
    [fx] and concatenated to [fx] along the channel axis. *)
Definition GlobalContext_forward (vn_mlp : feat -> feat) (fx : feat) : feat :=
  let Fx := map (fun ch => repeat (vmean ch) (nsamples fx)) fx in
  vn_mlp (fx ++ Fx).

(** The learned layers of one [EquivariantFeatureExtraction]: the [VNDGCNN]
    of the local context, the three layers of the one [CrossContext] that
    serves both directions, and the layer of the [GlobalContext]. *)
Record extraction_layers : Type := ExtractionLayers {
  local_context_feat : feat -> feat;
  cross_q : feat -> feat;
  cross_k : gfeat -> gfeat;
  cross_v : gfeat -> gfeat;
  global_mlp : feat -> feat
}.

(** [EquivariantFeatureExtraction.forward] on one batch element.  The head
    width of the cross context is the constant 16 of the constructor; the
    second cross context reads the updated [fx]. *)
Definition EquivariantFeatureExtraction_forward (L : extraction_layers)
    (get_graph_feature : feat -> nat -> gfeat) (k : nat) (x y : feat)
  : option (feat * feat) :=
  let cross_context :=
    CrossContext_forward 16 k (cross_q L) (cross_k L) (cross_v L) get_graph_feature in
  let fx := local_context_feat L x in
  let fy := local_context_feat L y in
  match cross_context fx fy with
  | Some fx =>
      match cross_context fy fx with
      | Some fy =>
          Some (GlobalContext_forward (global_mlp L) fx,
                GlobalContext_forward (global_mlp L) fy)
      | None => None
      end
  | None => None
  end.

(** A stand-in for the local context in the examples: the channels are
    listed 16 times over. *)
Definition widen (f : feat) : feat := concat (repeat f 16).

Definition example_layers : extraction_layers :=
  ExtractionLayers widen identity_layer identity_layer identity_layer identity_layer.

(* ================================================================== *)
(** * Part II: properties *)
(* ================================================================== *)

(** ** Algebra of the 3-axis *)

Ltac crush3 :=
  repeat match goal with
         | v : vec3 |- _ => destruct v
         | m : mat3 |- _ => destruct m
         end;
  unfold orthogonal, mmul, mtrans, mulMV, mcol0, mcol1, mcol2, madd, msub, mdiag,
    eye3, mzero, outer, vadd, vsub, vmul, vscale, vdivs, vzero, dot, det3, diagonal in *;
  cbn [vx vy vz row0 row1 row2] in *.

Lemma vec3_eq (a b c a' b' c' : R) :
  a = a' -> b = b' -> c = c' -> V3 a b c = V3 a' b' c'.
Proof. intros; subst; reflexivity. Qed.

Lemma mat3_eq (r0 r1 r2 r0' r1' r2' : vec3) :
  r0 = r0' -> r1 = r1' -> r2 = r2' -> M3 r0 r1 r2 = M3 r0' r1' r2'.
Proof. intros; subst; reflexivity. Qed.

Ltac ring3 :=
  crush3;
  repeat (apply mat3_eq || apply vec3_eq);
  try ring.

Lemma mmul_assoc (a b c : mat3) : mmul (mmul a b) c = mmul a (mmul b c).
Proof. ring3. Qed.

Lemma mmul_eye_l (a : mat3) : mmul eye3 a = a.
Proof. ring3. Qed.

Lemma mmul_eye_r (a : mat3) : mmul a eye3 = a.
Proof. ring3. Qed.

Lemma mtrans_mmul (a b : mat3) : mtrans (mmul a b) = mmul (mtrans b) (mtrans a).
Proof. ring3. Qed.

Lemma mtrans_involutive (a : mat3) : mtrans (mtrans a) = a.
Proof. ring3. Qed.

Lemma det3_mmul (a b : mat3) : det3 (mmul a b) = det3 a * det3 b.
Proof. crush3; ring. Qed.

Lemma det3_mtrans (a : mat3) : det3 (mtrans a) = det3 a.
Proof. crush3; ring. Qed.

Lemma det3_eye : det3 eye3 = 1.
Proof. crush3; ring. Qed.

Lemma det3_mdiag (s : vec3) : det3 (mdiag s) = vx s * vy s * vz s.
Proof. crush3; ring. Qed.

Lemma orthogonal_eye : orthogonal eye3.
Proof. split; ring3. Qed.

Lemma orthogonal_mmul (a b : mat3) :
  orthogonal a -> orthogonal b -> orthogonal (mmul a b).
Proof.
  intros [Ha1 Ha2] [Hb1 Hb2]; split; rewrite mtrans_mmul.
  - rewrite mmul_assoc, <- (mmul_assoc (mtrans a) a b), Ha1, mmul_eye_l; exact Hb1.
  - rewrite mmul_assoc, <- (mmul_assoc b (mtrans b) (mtrans a)), Hb2, mmul_eye_l; exact Ha2.
Qed.

Lemma orthogonal_det (a : mat3) : orthogonal a -> det3 a = 1 \/ det3 a = -1.
Proof.
  intros [Ha _].
  assert (Hsq : det3 a * det3 a = 1).
  { rewrite <- (det3_mtrans a) at 1. rewrite <- det3_mmul, Ha. apply det3_eye. }
  assert (Hz : (det3 a - 1) * (det3 a + 1) = 0) by lra.
  apply Rmult_integral in Hz; destruct Hz; [left | right]; lra.
Qed.

(** An orthogonal matrix preserves the dot product, hence the norm. *)
Lemma dot_mulMV (m : mat3) (u v : vec3) :
  dot (mulMV m u) (mulMV m v) = dot u (mulMV (mmul (mtrans m) m) v).
Proof. crush3; ring. Qed.

Lemma mulMV_eye (v : vec3) : mulMV eye3 v = v.
Proof. ring3. Qed.

Lemma dot_orthogonal (m : mat3) (u v : vec3) :
  orthogonal m -> dot (mulMV m u) (mulMV m v) = dot u v.
Proof. intros [H _]; rewrite dot_mulMV, H, mulMV_eye; reflexivity. Qed.

Lemma vnorm_orthogonal (m : mat3) (v : vec3) :
  orthogonal m -> vnorm (mulMV m v) = vnorm v.
Proof. intros H; unfold vnorm; rewrite dot_orthogonal by exact H; reflexivity. Qed.

Lemma dot_self_nonneg (v : vec3) : 0 <= dot v v.
Proof. crush3; nra. Qed.

Lemma vnorm_nonneg (v : vec3) : 0 <= vnorm v.
Proof. apply sqrt_pos. Qed.

Lemma vnorm_sqr (v : vec3) : vnorm v ^ 2 = dot v v.
Proof.
  unfold vnorm; simpl; rewrite Rmult_1_r; apply sqrt_sqrt, dot_self_nonneg.
Qed.

(** ** Lists *)

Lemma map2_length {A B C : Type} (f : A -> B -> C) (l : list A) (l' : list B) :
  length (map2 f l l') = Nat.min (length l) (length l').
Proof.
  revert l'; induction l as [|a l IH]; intros [|b l']; simpl; auto.
Qed.

Lemma sequence_Some {A : Type} (l : list A) : sequence (map Some l) = Some l.
Proof. induction l as [|a l IH]; simpl; [|rewrite IH]; reflexivity. Qed.

(** ** Alignment: the rotation *)

Lemma Alignment_forward1_eq (svd : mat3 -> mat3 * vec3 * mat3) (fx fy : list vec3) :
  length fx = length fy ->
  Alignment_forward1 svd fx fy
  = Some (alignment_rotation svd fx fy, Alignment_scale fx fy).
Proof.
  intros H; unfold Alignment_forward1, alignment_rotation.
  rewrite H, Nat.eqb_refl.
  destruct (svd (cross_covariance fx fy)) as [[u s] v]; reflexivity.
Qed.

Lemma Alignment_forward1_None (svd : mat3 -> mat3 * vec3 * mat3) (fx fy : list vec3) :
  length fx <> length fy -> Alignment_forward1 svd fx fy = None.
Proof.
  intros H; unfold Alignment_forward1.
  apply Nat.eqb_neq in H; rewrite H; reflexivity.
Qed.

(** [U Vh] of any singular value decomposition is orthogonal, so its
    determinant is one of the two square roots of 1. *)
Lemma svd_rotation_orthogonal (H u vh : mat3) (s : vec3) :
  svd_spec H (u, s, vh) ->
  orthogonal (mmul u vh) /\ (det3 (mmul u vh) = 1 \/ det3 (mmul u vh) = -1).
Proof.
  intros (Hu & Hv & _).
  assert (Ho : orthogonal (mmul u vh)) by (apply orthogonal_mmul; assumption).
  split; [exact Ho | apply orthogonal_det; exact Ho].
Qed.

(** A cross-covariance of negative determinant yields a reflection: the
    singular values are non-negative, so [det (U Vh)] carries the sign of
    [det H]. *)
Lemma svd_rotation_det_sign (H u vh : mat3) (s : vec3) :
  svd_spec H (u, s, vh) -> det3 H < 0 -> det3 (mmul u vh) = -1.
Proof.
  intros Hs Hneg.
  destruct (svd_rotation_orthogonal H u vh s Hs) as [_ [Hd | Hd]]; [| exact Hd].
  exfalso.
  destruct Hs as (_ & _ & H1 & H2 & H3 & HH).
  rewrite HH in Hneg.
  rewrite !det3_mmul, det3_mdiag in Hneg.
  rewrite det3_mmul in Hd.
  assert (Hp : 0 <= vx s * vy s * vz s).
  { apply Rmult_le_pos; [apply Rmult_le_pos |]; lra. }
  assert (He : det3 u * (vx s * vy s * vz s) * det3 vh
               = (det3 u * det3 vh) * (vx s * vy s * vz s)) by ring.
  rewrite He, Hd in Hneg; lra.
Qed.

(** A cross-covariance of positive determinant yields a proper rotation. *)
Lemma svd_rotation_det_pos (H u vh : mat3) (s : vec3) :
  svd_spec H (u, s, vh) -> 0 < det3 H -> det3 (mmul u vh) = 1.
Proof.
  intros Hs Hpos.
  destruct (svd_rotation_orthogonal H u vh s Hs) as [_ [Hd | Hd]]; [exact Hd |].
  exfalso.
  destruct Hs as (_ & _ & H1 & H2 & H3 & HH).
  rewrite HH in Hpos.
  rewrite !det3_mmul, det3_mdiag in Hpos.
  rewrite det3_mmul in Hd.
  assert (Hp : 0 <= vx s * vy s * vz s).
  { apply Rmult_le_pos; [apply Rmult_le_pos |]; lra. }
  assert (He : det3 u * (vx s * vy s * vz s) * det3 vh
               = (det3 u * det3 vh) * (vx s * vy s * vz s)) by ring.
  rewrite He, Hd in Hpos; lra.
Qed.

Lemma Alignment_forward_eq (svd : mat3 -> mat3 * vec3 * mat3) (fx fy : list (list vec3)) :
  Forall2 (fun x y => length x = length y) fx fy ->
  Alignment_forward svd fx fy
  = Some (map2 (alignment_rotation svd) fx fy, map2 Alignment_scale fx fy).
Proof.
  intros HF; unfold Alignment_forward.
  assert (Hlen : length fx = length fy) by (induction HF; simpl; congruence).
  rewrite Hlen, Nat.eqb_refl.
  assert (Hs : sequence (map2 (Alignment_forward1 svd) fx fy)
               = Some (map2 (fun x y => (alignment_rotation svd x y, Alignment_scale x y))
                            fx fy)).
  { clear Hlen; induction HF as [|x y fx fy Hxy HF IH]; simpl; [reflexivity|].
    rewrite (Alignment_forward1_eq svd x y Hxy), IH; reflexivity. }
  rewrite Hs; clear Hs Hlen.
  f_equal; f_equal; induction HF; simpl; congruence.
Qed.

(** C1 (as amended): on every batch of descriptor pairs whose cross-covariance
    the decomposition routine really decomposes, [Alignment.forward] returns
    for each batch element the product [U Vh] of the factors of
    [H = fx^T fy], with no correction applied; each returned matrix is
    orthogonal, and its determinant is +1 or -1. *)
Theorem alignment_rotation_orthogonal
    (svd : mat3 -> mat3 * vec3 * mat3) (fx fy : list (list vec3)) :
  Forall2 (fun x y => length x = length y
                      /\ svd_spec (cross_covariance x y) (svd (cross_covariance x y)))
          fx fy ->
  exists Rs Ss,
    Alignment_forward svd fx fy = Some (Rs, Ss)
    /\ Rs = map2 (fun x y => let '(u, _, vh) := svd (cross_covariance x y) in mmul u vh)
                 fx fy
    /\ Forall (fun Rm => orthogonal Rm /\ (det3 Rm = 1 \/ det3 Rm = -1)) Rs.
Proof.
  intros HF.
  exists (map2 (alignment_rotation svd) fx fy), (map2 Alignment_scale fx fy).
  split; [| split].
  - apply Alignment_forward_eq.
    induction HF as [|x y fx fy [Hxy _] HF IH]; constructor; assumption.
  - reflexivity.
  - induction HF as [|x y fx fy [_ Hs] HF IH]; simpl; constructor; [| exact IH].
    unfold alignment_rotation.
    destruct (svd (cross_covariance x y)) as [[u s] vh].
    exact (svd_rotation_orthogonal _ u vh s Hs).
Qed.

Lemma cross_covariance_unit_frame : cross_covariance unit_frame unit_frame = eye3.
Proof. unfold cross_covariance, unit_frame, e1, e2, e3; simpl; ring3. Qed.

Lemma cross_covariance_mirrored :
  cross_covariance unit_frame mirrored_frame = mdiag (V3 1 1 (-1)).
Proof. unfold cross_covariance, unit_frame, mirrored_frame, e1, e2, e3; simpl; ring3. Qed.

Lemma svd_of_identity_spec : svd_spec eye3 (svd_of_identity eye3).
Proof.
  unfold svd_of_identity, svd_spec.
  split; [apply orthogonal_eye | split; [apply orthogonal_eye |]].
  cbn [vx vy vz]; repeat split; try lra.
  ring3.
Qed.

Lemma orthogonal_mirror : orthogonal (mdiag (V3 1 1 (-1))).
Proof. split; ring3. Qed.

Lemma svd_of_mirror_spec (H : mat3) :
  H = mdiag (V3 1 1 (-1)) -> svd_spec H (svd_of_mirror H).
Proof.
  intros ->; unfold svd_of_mirror, svd_spec.
  split; [apply orthogonal_eye | split; [apply orthogonal_mirror |]].
  cbn [vx vy vz]; repeat split; try lra.
  ring3.
Qed.

(** The unit frame aligned with itself, decomposed as [I (1,1,1) I]. *)
Lemma alignment_rotation_orthogonal_witness :
  exists Rs Ss,
    Alignment_forward svd_of_identity [unit_frame] [unit_frame] = Some (Rs, Ss)
    /\ Rs = map2 (fun x y => let '(u, _, vh) := svd_of_identity (cross_covariance x y) in
                             mmul u vh)
                 [unit_frame] [unit_frame]
    /\ Forall (fun Rm => orthogonal Rm /\ (det3 Rm = 1 \/ det3 Rm = -1)) Rs.
Proof.
  apply (alignment_rotation_orthogonal svd_of_identity [unit_frame] [unit_frame]).
  constructor; [| constructor].
  split; [reflexivity |].
  rewrite cross_covariance_unit_frame; apply svd_of_identity_spec.
Defined.

(** C1 (as stated) fails: with the unit frame as [fx] and the mirrored frame as
    [fy] the cross-covariance is [diag(1,1,-1)]; a valid decomposition exists,
    and for every valid decomposition the returned matrix has determinant -1. *)
Lemma alignment_returns_reflection :
  svd_spec (cross_covariance unit_frame mirrored_frame)
           (svd_of_mirror (cross_covariance unit_frame mirrored_frame))
  /\ (forall svd : mat3 -> mat3 * vec3 * mat3,
        svd_spec (cross_covariance unit_frame mirrored_frame)
                 (svd (cross_covariance unit_frame mirrored_frame)) ->
        exists Rm S,
          Alignment_forward svd [unit_frame] [mirrored_frame] = Some ([Rm], S)
          /\ det3 Rm = -1).
Proof.
  split.
  - apply svd_of_mirror_spec, cross_covariance_mirrored.
  - intros svd Hs.
    exists (alignment_rotation svd unit_frame mirrored_frame),
           [Alignment_scale unit_frame mirrored_frame].
    split.
    + rewrite Alignment_forward_eq by (constructor; [reflexivity | constructor]).
      reflexivity.
    + unfold alignment_rotation.
      destruct (svd (cross_covariance unit_frame mirrored_frame)) as [[u s] vh].
      apply (svd_rotation_det_sign _ u vh s Hs).
      rewrite cross_covariance_mirrored, det3_mdiag; cbn [vx vy vz]; lra.
Qed.

(** ** Alignment: the scale *)

Lemma vx_vsum (l : list vec3) : vx (vsum l) = sumR (map vx l).
Proof. induction l as [|v l IH]; simpl; [|rewrite IH]; reflexivity. Qed.

Lemma vy_vsum (l : list vec3) : vy (vsum l) = sumR (map vy l).
Proof. induction l as [|v l IH]; simpl; [|rewrite IH]; reflexivity. Qed.

Lemma vz_vsum (l : list vec3) : vz (vsum l) = sumR (map vz l).
Proof. induction l as [|v l IH]; simpl; [|rewrite IH]; reflexivity. Qed.

(** The reduction over the channel axis, coordinate by coordinate. *)
Lemma norm_dim1_axes (f : list vec3) :
  norm_dim1 f = V3 (axis_norm vx f) (axis_norm vy f) (axis_norm vz f).
Proof.
  unfold norm_dim1, vsqrt, axis_norm.
  rewrite vx_vsum, vy_vsum, vz_vsum, !map_map; reflexivity.
Qed.

Lemma fdiv_zero (a : R) : fdiv a 0 = None.
Proof. unfold fdiv; destruct (Req_dec_T 0 0) as [_ | H]; [reflexivity | contradiction]. Qed.

Lemma fdiv_nonzero (a b : R) : b <> 0 -> fdiv a b = Some (a / b).
Proof. intros H; unfold fdiv; destruct (Req_dec_T b 0); [contradiction | reflexivity]. Qed.

Lemma fdiv_value (a b c : R) : b <> 0 -> a = c * b -> fdiv a b = Some c.
Proof. intros Hb ->; rewrite fdiv_nonzero by exact Hb; f_equal; field; exact Hb. Qed.

Lemma sqrt_value (r x : R) : 0 <= x -> x * x = r -> sqrt r = x.
Proof. intros Hx <-; apply sqrt_square; exact Hx. Qed.

Lemma Alignment_scale_axes (fx fy : list vec3) :
  Alignment_scale fx fy
  = [fdiv (axis_norm vx fy) (axis_norm vx fx);
     fdiv (axis_norm vy fy) (axis_norm vy fx);
     fdiv (axis_norm vz fy) (axis_norm vz fx)].
Proof. unfold Alignment_scale; rewrite !norm_dim1_axes; reflexivity. Qed.

Lemma map2_ext {A B C : Type} (f g : A -> B -> C) (l : list A) (l' : list B) :
  (forall a b, f a b = g a b) -> map2 f l l' = map2 g l l'.
Proof.
  intros H; revert l'; induction l as [|a l IH]; intros [|b l']; simpl;
    [reflexivity .. |].
  rewrite H, IH; reflexivity.
Qed.

(** C2 (as amended): the scale [Alignment.forward] returns has three entries
    per batch element, one per coordinate of the 3-axis; each is the norm of
    that coordinate of [fy] taken over the channel axis, divided by the same
    norm of [fx]. *)
Theorem alignment_scale_per_axis
    (svd : mat3 -> mat3 * vec3 * mat3) (fx fy : list (list vec3)) :
  Forall2 (fun x y => length x = length y) fx fy ->
  exists Rs,
    Alignment_forward svd fx fy
    = Some (Rs, map2 (fun x y => [fdiv (axis_norm vx y) (axis_norm vx x);
                                  fdiv (axis_norm vy y) (axis_norm vy x);
                                  fdiv (axis_norm vz y) (axis_norm vz x)])
                     fx fy).
Proof.
  intros H; exists (map2 (alignment_rotation svd) fx fy).
  rewrite (Alignment_forward_eq svd fx fy H).
  rewrite (map2_ext Alignment_scale _ fx fy Alignment_scale_axes); reflexivity.
Qed.

(** The unit frame against the stretched frame. *)
Lemma alignment_scale_per_axis_witness :
  exists Rs,
    Alignment_forward svd_of_identity [unit_frame] [stretched_frame]
    = Some (Rs, map2 (fun x y => [fdiv (axis_norm vx y) (axis_norm vx x);
                                  fdiv (axis_norm vy y) (axis_norm vy x);
                                  fdiv (axis_norm vz y) (axis_norm vz x)])
                     [unit_frame] [stretched_frame]).
Proof.
  apply (alignment_scale_per_axis svd_of_identity [unit_frame] [stretched_frame]).
  constructor; [reflexivity | constructor].
Defined.

Lemma sumR_scale (c : R) (g : vec3 -> R) (f : list vec3) :
  sumR (map (fun v => c * g v * (c * g v)) f) = c * c * sumR (map (fun v => g v * g v) f).
Proof. induction f as [|v f IH]; simpl; [ring | rewrite IH; ring]. Qed.

Lemma sumR_squares_nonneg (g : vec3 -> R) (f : list vec3) :
  0 <= sumR (map (fun v => g v * g v) f).
Proof. induction f as [|v f IH]; simpl; [lra | nra]. Qed.

Lemma axis_norm_scale (c : R) (g : vec3 -> R) (f : list vec3) :
  sqrt (sumR (map (fun v => c * g v * (c * g v)) f)) = Rabs c * axis_norm g f.
Proof.
  rewrite sumR_scale, sqrt_mult; [| nra | apply sumR_squares_nonneg].
  unfold axis_norm; f_equal.
  apply sqrt_Rsqr_abs.
Qed.

(** Why the norms run over the channel axis: when every channel vector of
    [fy] is the channel vector of [fx] stretched by [a] coordinate by
    coordinate, the returned scale is [|a|], one entry per coordinate. *)
Lemma alignment_scale_recovers_stretch (a : vec3) (fx : list vec3) :
  axis_norm vx fx <> 0 -> axis_norm vy fx <> 0 -> axis_norm vz fx <> 0 ->
  Alignment_scale fx (map (vmul a) fx)
  = [Some (Rabs (vx a)); Some (Rabs (vy a)); Some (Rabs (vz a))].
Proof.
  intros Hx Hy Hz; rewrite Alignment_scale_axes.
  unfold axis_norm at 1 3 5; rewrite !map_map; cbn [vmul vx vy vz].
  rewrite (axis_norm_scale (vx a) vx), (axis_norm_scale (vy a) vy),
    (axis_norm_scale (vz a) vz).
  rewrite !(fdiv_value _ _ _) by (assumption || reflexivity); reflexivity.
Qed.

Ltac eval_sqrts :=
  repeat match goal with
         | |- context [sqrt ?r] =>
             first [ rewrite (sqrt_value r 0) by lra
                   | rewrite (sqrt_value r 1) by lra
                   | rewrite (sqrt_value r 2) by lra ]
         end.

Lemma scale_unit_stretched :
  Alignment_scale unit_frame stretched_frame = [Some 1; Some 2; Some 1].
Proof.
  rewrite Alignment_scale_axes.
  unfold axis_norm, unit_frame, stretched_frame, e1, e2, e3; simpl.
  eval_sqrts.
  rewrite (fdiv_value 1 1 1), (fdiv_value 2 1 2) by lra; reflexivity.
Qed.

(** C2 (as stated) fails: for the unit frame against the stretched frame the
    code returns the per-coordinate ratios (1, 2, 1), while the ratios of the
    per-channel vector norms are (2, 1, 1). *)
Lemma alignment_scale_not_per_row :
  Alignment_forward svd_of_identity [unit_frame] [stretched_frame]
  = Some ([alignment_rotation svd_of_identity unit_frame stretched_frame],
          [[Some 1; Some 2; Some 1]])
  /\ per_row_scale unit_frame stretched_frame = [Some 2; Some 1; Some 1].
Proof.
  split.
  - rewrite Alignment_forward_eq by (constructor; [reflexivity | constructor]).
    cbn [map2]; rewrite scale_unit_stretched; reflexivity.
  - unfold per_row_scale, unit_frame, stretched_frame, e1, e2, e3, vnorm, dot; simpl.
    eval_sqrts.
    rewrite (fdiv_value 1 1 1), (fdiv_value 2 1 2) by lra; reflexivity.
Qed.

(** ** Division guards *)

Lemma eps6_pos : 0 < eps6.
Proof. unfold eps6; lra. Qed.

Lemma eps12_pos : 0 < eps12.
Proof. unfold eps12; lra. Qed.

(** [InvariantMapping] adds [1e-6] to the norm it divides by, so that
    denominator is never zero and the division stays finite. *)
Lemma parallel_dir_denominator_pos (m : vec3) : 0 < vnorm m + eps6.
Proof. pose proof (vnorm_nonneg m); pose proof eps6_pos; lra. Qed.

Lemma parallel_dir_guarded (a : R) (m : vec3) :
  fdiv a (vnorm m + eps6) = Some (a / (vnorm m + eps6)).
Proof.
  apply fdiv_nonzero; pose proof (parallel_dir_denominator_pos m); lra.
Qed.

(** [F.normalize] clamps the norm from below by [1e-12] instead. *)
Lemma F_normalize3_denominator_pos (v : vec3) : 0 < Rmax (vnorm v) eps12.
Proof.
  pose proof eps12_pos; pose proof (Rmax_r (vnorm v) eps12); lra.
Qed.

(** The norm profile across channels is clamped the same way. *)
Lemma chnorm_column_denominator_pos (a : R) : 0 < Rmax a eps12.
Proof. pose proof eps12_pos; pose proof (Rmax_r a eps12); lra. Qed.

(** The attention scale [sqrt(3 C)] of a tensor with at least one channel. *)
Lemma attention_scale_pos (C : nat) : (0 < C)%nat -> 0 < sqrt (3 * INR C).
Proof.
  intros H; apply sqrt_lt_R0.
  apply lt_INR in H; simpl in H; lra.
Qed.

(** The extent a mean divides by, on a non-empty axis. *)
Lemma mean_denominator_pos {A : Type} (l : list A) : l <> [] -> 0 < INR (length l).
Proof.
  intros H; destruct l as [|a l]; [contradiction|].
  apply lt_0_INR; simpl; lia.
Qed.

(** The soft-max denominator, on a non-empty axis. *)
Lemma sumR_exp_pos (l : list R) : l <> [] -> 0 < sumR (map exp l).
Proof.
  intros Hl; destruct l as [|a l]; [contradiction|]; clear Hl.
  revert a; induction l as [|b l IH]; intros a; simpl.
  - pose proof (exp_pos a); lra.
  - pose proof (exp_pos a); specialize (IH b); simpl in IH; lra.
Qed.

Lemma norm_dim1_zero : norm_dim1 [vzero] = vzero.
Proof.
  rewrite norm_dim1_axes; unfold axis_norm, vzero; simpl.
  eval_sqrts; reflexivity.
Qed.

(** C9 at its failing input: [Alignment.forward] divides by
    [torch.norm(fx, dim=1)] with nothing added to it; on an all-zero
    descriptor every denominator is zero and no entry of the returned scale
    is a finite number. *)
Theorem alignment_scale_unguarded (svd : mat3 -> mat3 * vec3 * mat3) :
  Alignment_forward svd [[vzero]] [[vzero]]
  = Some ([alignment_rotation svd [vzero] [vzero]], [[None; None; None]]).
Proof.
  rewrite Alignment_forward_eq by (constructor; [reflexivity | constructor]).
  cbn [map2]; unfold Alignment_scale; rewrite norm_dim1_zero; simpl.
  rewrite !fdiv_zero; reflexivity.
Qed.

(** ** InvariantMapping: rotation invariance of the score *)

Lemma mulMV_vzero (m : mat3) : mulMV m vzero = vzero.
Proof. ring3. Qed.

Lemma mulMV_vadd (m : mat3) (u v : vec3) :
  mulMV m (vadd u v) = vadd (mulMV m u) (mulMV m v).
Proof. ring3. Qed.

Lemma mulMV_vdivs (m : mat3) (v : vec3) (a : R) :
  mulMV m (vdivs v a) = vdivs (mulMV m v) a.
Proof. crush3; unfold Rdiv; repeat (apply vec3_eq); ring. Qed.

Lemma mulMV_vsum (m : mat3) (l : list vec3) :
  mulMV m (vsum l) = vsum (map (mulMV m) l).
Proof.
  induction l as [|v l IH]; simpl.
  - apply mulMV_vzero.
  - rewrite mulMV_vadd, IH; reflexivity.
Qed.

Lemma vmean_rotate (m : mat3) (l : list vec3) :
  vmean (map (mulMV m) l) = mulMV m (vmean l).
Proof.
  unfold vmean; rewrite length_map, mulMV_vdivs, mulMV_vsum; reflexivity.
Qed.

Lemma nsamples_rotate (m : mat3) (f : feat) : nsamples (rotate_feat m f) = nsamples f.
Proof. destruct f as [|ch f]; simpl; [reflexivity | apply length_map]. Qed.

Lemma at_sample_rotate (m : mat3) (n : nat) (f : feat) :
  at_sample n (rotate_feat m f) = map (mulMV m) (at_sample n f).
Proof.
  unfold at_sample, rotate_feat; rewrite !map_map.
  apply map_ext; intros ch.
  rewrite <- (mulMV_vzero m) at 1; apply map_nth.
Qed.

Lemma mean_dim1_rotate (m : mat3) (f : feat) :
  mean_dim1 (rotate_feat m f) = map (mulMV m) (mean_dim1 f).
Proof.
  unfold mean_dim1; rewrite nsamples_rotate, map_map.
  apply map_ext; intros n; rewrite at_sample_rotate; apply vmean_rotate.
Qed.

Lemma parallel_dir_rotate (m : mat3) (v : vec3) :
  orthogonal m -> parallel_dir (mulMV m v) = mulMV m (parallel_dir v).
Proof.
  intros H; unfold parallel_dir.
  rewrite vnorm_orthogonal by exact H; symmetry; apply mulMV_vdivs.
Qed.

(** The descriptor [phi] does not see a rotation of its feature tensor. *)
Lemma invariant_descriptor_rotate (m : mat3) (f : feat) :
  orthogonal m -> invariant_descriptor (rotate_feat m f) = invariant_descriptor f.
Proof.
  intros H; unfold invariant_descriptor, project.
  rewrite nsamples_rotate, mean_dim1_rotate.
  assert (Hpar : map parallel_dir (map (mulMV m) (mean_dim1 f))
                 = map (mulMV m) (map parallel_dir (mean_dim1 f))).
  { rewrite !map_map; apply map_ext; intros u; apply parallel_dir_rotate, H. }
  rewrite Hpar.
  apply map_ext; intros n.
  rewrite at_sample_rotate, map_map.
  apply map_ext; intros v.
  rewrite <- (mulMV_vzero m) at 1; rewrite map_nth.
  apply dot_orthogonal, H.
Qed.

(** C6: rotating every channel vector of both feature tensors by the same
    orthogonal matrix, in particular by a rotation, leaves every per-point
    score of the invariant mapping unchanged. *)
Theorem invariant_scores_rotation (Rm : mat3) (fx fy : feat) :
  orthogonal Rm ->
  InvariantMapping_scores (rotate_feat Rm fx) (rotate_feat Rm fy)
  = InvariantMapping_scores fx fy.
Proof.
  intros H; unfold InvariantMapping_scores.
  rewrite !invariant_descriptor_rotate by exact H; reflexivity.
Qed.

Lemma orthogonal_quarter_turn_z : orthogonal quarter_turn_z.
Proof. split; unfold quarter_turn_z; ring3. Qed.

(** The small feature pair under the quarter turn about the third axis. *)
Lemma invariant_scores_rotation_witness :
  InvariantMapping_scores (rotate_feat quarter_turn_z small_fx)
                          (rotate_feat quarter_turn_z small_fy)
  = InvariantMapping_scores small_fx small_fy.
Proof.
  apply (invariant_scores_rotation quarter_turn_z small_fx small_fy).
  exact orthogonal_quarter_turn_z.
Defined.

(** ** torch.topk *)

Lemma argmax_in (score : nat -> R) (cands : list nat) (best : nat) :
  In (argmax score best cands) (best :: cands).
Proof.
  revert best; induction cands as [|c cs IH]; intros best; simpl.
  - left; reflexivity.
  - destruct (Rlt_dec (score best) (score c)).
    + destruct (IH c) as [H | H]; [right; left; exact H | right; right; exact H].
    + destruct (IH best) as [H | H]; [left; exact H | right; right; exact H].
Qed.

Lemma argmax_ge_best (score : nat -> R) (cands : list nat) (best : nat) :
  score best <= score (argmax score best cands).
Proof.
  revert best; induction cands as [|c cs IH]; intros best; simpl.
  - lra.
  - destruct (Rlt_dec (score best) (score c)).
    + specialize (IH c); lra.
    + apply IH.
Qed.

Lemma argmax_max (score : nat -> R) (cands : list nat) (best j : nat) :
  In j (best :: cands) -> score j <= score (argmax score best cands).
Proof.
  revert best; induction cands as [|c cs IH]; intros best Hj; simpl.
  - destruct Hj as [<- | []]; lra.
  - destruct (Rlt_dec (score best) (score c)) as [Hlt | Hge].
    + destruct Hj as [<- | Hj].
      * pose proof (argmax_ge_best score cs c); lra.
      * apply IH; exact Hj.
    + destruct Hj as [<- | [<- | Hj]].
      * apply argmax_ge_best.
      * pose proof (argmax_ge_best score cs best); lra.
      * apply IH; right; exact Hj.
Qed.

Lemma NoDup_remove_eq (x : nat) (l : list nat) :
  NoDup l -> NoDup (remove Nat.eq_dec x l).
Proof.
  induction 1 as [|a l Ha Hl IH]; simpl; [constructor|].
  destruct (Nat.eq_dec x a); [exact IH|].
  constructor; [| exact IH].
  intros Hin; apply in_remove in Hin; tauto.
Qed.

Lemma remove_length_NoDup (x : nat) (l : list nat) :
  NoDup l -> In x l -> S (length (remove Nat.eq_dec x l)) = length l.
Proof.
  induction 1 as [|a l Ha Hl IH]; intros Hin; simpl; [contradiction|].
  destruct (Nat.eq_dec x a) as [-> | Hne].
  - rewrite notin_remove by exact Ha; reflexivity.
  - destruct Hin as [-> | Hin]; [contradiction|].
    simpl; rewrite IH by exact Hin; reflexivity.
Qed.

Lemma topk_select_length (score : nat -> R) (k : nat) (cands : list nat) :
  NoDup cands -> length (topk_select score cands k) = Nat.min k (length cands).
Proof.
  revert cands; induction k as [|k IH]; intros cands Hnd; simpl; [reflexivity|].
  destruct cands as [|c cs]; [reflexivity|].
  cbn [length]; rewrite IH by (apply NoDup_remove_eq; exact Hnd).
  pose proof (remove_length_NoDup (argmax score c cs) (c :: cs) Hnd (argmax_in score cs c)) as Hl.
  cbn [length] in Hl; lia.
Qed.

Lemma topk_select_in (score : nat -> R) (k : nat) (cands : list nat) (i : nat) :
  In i (topk_select score cands k) -> In i cands.
Proof.
  revert cands; induction k as [|k IH]; intros cands; simpl; [contradiction|].
  destruct cands as [|c cs]; [contradiction|].
  intros [<- | Hin]; [apply argmax_in|].
  apply IH in Hin; apply in_remove in Hin; tauto.
Qed.

Lemma topk_select_NoDup (score : nat -> R) (k : nat) (cands : list nat) :
  NoDup (topk_select score cands k).
Proof.
  revert cands; induction k as [|k IH]; intros cands; simpl; [constructor|].
  destruct cands as [|c cs]; [constructor|].
  constructor; [| apply IH].
  intros Hin; apply topk_select_in, in_remove in Hin; tauto.
Qed.

(** Whatever is left out scores no higher than anything selected. *)
Lemma topk_select_top (score : nat -> R) (k : nat) (cands : list nat) (i j : nat) :
  In i (topk_select score cands k) -> In j cands ->
  ~ In j (topk_select score cands k) -> score j <= score i.
Proof.
  revert cands; induction k as [|k IH]; intros cands; simpl; [contradiction|].
  destruct cands as [|c cs]; [contradiction|].
  intros [<- | Hi] Hj Hnj.
  - apply argmax_max; exact Hj.
  - apply (IH _ Hi).
    + apply in_in_remove; [| exact Hj].
      intros ->; apply Hnj; left; reflexivity.
    + intros H; apply Hnj; right; exact H.
Qed.

(** ** InvariantMapping: the selection *)

Lemma invariant_descriptor_length (f : feat) :
  length (invariant_descriptor f) = nsamples f.
Proof. unfold invariant_descriptor, project; rewrite length_map, length_seq; reflexivity. Qed.

Lemma scores_length (fx fy : feat) :
  length (InvariantMapping_scores fx fy) = Nat.min (nsamples fx) (nsamples fy).
Proof.
  unfold InvariantMapping_scores, softmax, inner_rows.
  rewrite length_map, map2_length, !invariant_descriptor_length; reflexivity.
Qed.

Lemma same_extents_nsamples {A B : Type} (f : list (list A)) (g : list (list B)) :
  same_extents f g = true -> length f = length g /\ nsamples f = nsamples g.
Proof.
  unfold same_extents; intros H; apply andb_prop in H; destruct H as [H1 H2].
  split; apply Nat.eqb_eq; assumption.
Qed.

Lemma gather_rectangular (f : feat) (idx : list nat) :
  rectangular (length idx) (gather f idx).
Proof.
  unfold rectangular, gather; apply Forall_forall; intros ch Hin.
  apply in_map_iff in Hin; destruct Hin as (ch' & <- & _); apply length_map.
Qed.

Lemma InvariantMapping_forward1_selection (fx fy : feat) (topk : nat) :
  same_extents fx fy = true ->
  topk <> 0%nat ->
  exists idx,
    InvariantMapping_forward1 fx fy topk = Some (gather fx idx, gather fy idx)
    /\ top_selection fx fy topk idx.
Proof.
  intros Hext Htopk.
  destruct (same_extents_nsamples fx fy Hext) as [_ HN].
  pose proof (scores_length fx fy) as HL; rewrite <- HN, Nat.min_id in HL.
  unfold top_selection.
  set (Sc := InvariantMapping_scores fx fy) in *.
  set (score := fun i => nth i Sc 0).
  set (idx := topk_select score (seq 0 (length Sc)) (length Sc / topk)).
  assert (Hk : (length Sc / topk <= length Sc)%nat).
  { apply Nat.Div0.div_le_upper_bound; nia. }
  exists idx; repeat split.
  - unfold InvariantMapping_forward1; rewrite Hext.
    destruct topk as [|t]; [contradiction|].
    fold Sc; unfold topk_indices.
    apply Nat.leb_le in Hk; rewrite Hk; reflexivity.
  - unfold idx; rewrite topk_select_length by apply seq_NoDup.
    rewrite length_seq, HL; apply Nat.min_l; rewrite <- HL; exact Hk.
  - apply topk_select_NoDup.
  - apply Forall_forall; intros i Hi.
    apply topk_select_in, in_seq in Hi; lia.
  - intros i j Hi Hj Hnj.
    apply (topk_select_top score (length Sc / topk) (seq 0 (length Sc)) i j Hi).
    + apply in_seq; lia.
    + exact Hnj.
Qed.




(** The divisor 0 is a division by zero of Python integers. *)
Lemma invariant_mapping_zero_divisor (fx fy : feat) :
  InvariantMapping_forward1 fx fy 0 = None.
Proof. unfold InvariantMapping_forward1; destruct (same_extents fx fy); reflexivity. Qed.

(** ** CrossContext: the attention weights *)

Lemma chunks_concat {A : Type} (n m : nat) (l : list A) :
  length l = (n * m)%nat -> concat (chunks n m l) = l.
Proof.
  revert l; induction n as [|n IH]; intros l Hl; simpl in *.
  - apply length_zero_iff_nil in Hl; subst; reflexivity.
  - rewrite IH.
    + apply firstn_skipn.
    + rewrite length_skipn, Hl; lia.
Qed.

Lemma chunks_lengths {A : Type} (n m : nat) (l : list A) :
  length l = (n * m)%nat -> Forall (fun g => length g = m) (chunks n m l).
Proof.
  revert l; induction n as [|n IH]; intros l Hl; simpl in *; [constructor|].
  constructor.
  - rewrite length_firstn, Hl; lia.
  - apply IH; rewrite length_skipn, Hl; lia.
Qed.

Lemma expand_group_same {A : Type} (m : nat) (g : list A) :
  length g = m -> expand_group m g = Some g.
Proof. intros H; unfold expand_group; rewrite H, Nat.eqb_refl; reflexivity. Qed.

Lemma sequence_expand_same {A : Type} (m : nat) (gs : list (list A)) :
  Forall (fun g => length g = m) gs ->
  sequence (map (expand_group m) gs) = Some gs.
Proof.
  induction 1 as [|g gs Hg Hgs IH]; simpl; [reflexivity|].
  rewrite (expand_group_same m g Hg), IH; reflexivity.
Qed.

(** What lines 57-63 compute: the view into head groups, the expand and the
    view back cancel, and every channel keeps the soft-max of its own
    logits. *)
Lemma attention_weights_per_channel (head_c : nat) (qk : list (list (list R))) :
  head_c <> 0%nat ->
  (length qk / head_c * head_c)%nat = length qk ->
  attention_weights head_c qk
  = Some (map (map (fun row => softmax (map (fun a => a / sqrt (3 * INR (length qk))) row)))
              qk).
Proof.
  intros Hc Hdiv; unfold attention_weights.
  destruct head_c as [|c']; [contradiction|].
  set (m := S c') in *.
  rewrite Hdiv, Nat.eqb_refl.
  set (n := (length qk / m)%nat) in *.
  set (sc := fun a : R => a / sqrt (3 * INR (length qk))).
  rewrite sequence_expand_same.
  - pose proof (chunks_concat n m qk (eq_sym Hdiv)) as Hcc.
    set (gs := chunks n m qk) in *.
    rewrite <- Hcc, !map_map, concat_map; do 2 f_equal.
    apply map_ext; intros g; rewrite !map_map.
    apply map_ext; intros ch; rewrite !map_map; reflexivity.
  - rewrite !Forall_map.
    eapply Forall_impl; [| apply (chunks_lengths n m qk); symmetry; exact Hdiv].
    intros g Hg; rewrite !length_map; exact Hg.
Qed.

(** The whole module, for any learned layers: where operands fit, the output
    is the residual sum of [x] and the values of [y] weighted per channel. *)
Lemma CrossContext_forward_per_channel
    (head_c k : nat) (vn_mlp_q : feat -> feat) (vn_mlp_k vn_mlp_v : gfeat -> gfeat)
    (get_graph_feature : feat -> nat -> gfeat) (x y : feat) :
  let Qx := channel_equi_vec_normalize (vn_mlp_q x) in
  let Ky := channel_equi_vec_normalize5 (vn_mlp_k (get_graph_feature y k)) in
  let Vy := vn_mlp_v (get_graph_feature y k) in
  let qk := attention_logits Qx Ky in
  same_extents Ky Qx && same_extents Ky Vy && same_extents x Vy = true ->
  head_c <> 0%nat ->
  (length qk / head_c * head_c)%nat = length qk ->
  CrossContext_forward head_c k vn_mlp_q vn_mlp_k vn_mlp_v get_graph_feature x y
  = Some (attend x
            (map (map (fun row => softmax (map (fun a => a / sqrt (3 * INR (length qk))) row)))
                 qk)
            Vy).
Proof.
  intros Qx Ky Vy qk Hext Hc Hdiv; unfold CrossContext_forward.
  fold Qx Ky Vy; rewrite Hext; fold qk.
  rewrite (attention_weights_per_channel head_c qk Hc Hdiv); reflexivity.
Qed.

(** C5 at its failing input: two channels that form one head of
    [atten_multi_head_c = 2] channels, one sample, two neighbours.  The code
    gives the first channel the weights (1/2, 1/2) and the second channel a
    weight above 1/2 on the first neighbour: a score of its own per channel.
    The attention of the specification gives both channels of the head the
    same weights. *)
Theorem attention_weights_differ_within_head :
  exists w0 w1,
    attention_weights 2 head_logits = Some [[w0]; [w1]]
    /\ w0 = [1 / 2; 1 / 2]
    /\ 1 / 2 < nth 0 w1 0
    /\ exists w, shared_head_weights 2 head_logits = [w; w].
Proof.
  rewrite attention_weights_per_channel by (try discriminate; reflexivity).
  unfold head_logits; cbn [map length].
  set (s := sqrt (3 * INR 2)).
  assert (Hs : 0 < s).
  { unfold s; apply sqrt_lt_R0; simpl; lra. }
  do 2 eexists; split; [reflexivity|]; split; [| split].
  - unfold softmax; cbn [map sumR fold_right].
    replace (0 / s) with 0 by (unfold Rdiv; ring).
    rewrite exp_0.
    replace (1 + (1 + 0)) with 2 by ring; reflexivity.
  - unfold softmax; cbn [map sumR fold_right nth].
    replace (0 / s) with 0 by (unfold Rdiv; ring).
    rewrite exp_0.
    assert (Ha : 1 < exp (1 / s)).
    { pose proof (exp_increasing 0 (1 / s)) as Hinc.
      rewrite exp_0 in Hinc; apply Hinc.
      apply Rdiv_lt_0_compat; lra. }
    set (a := exp (1 / s)) in *.
    assert (E : a / (a + (1 + 0)) = 1 / 2 + (a - 1) / (2 * (a + 1))) by (field; lra).
    assert (Hp : 0 < (a - 1) / (2 * (a + 1))) by (apply Rdiv_lt_0_compat; lra).
    rewrite E; lra.
  - unfold shared_head_weights; simpl; eexists; reflexivity.
Qed.

(** ** HEGN_Loss *)

Lemma fnorm_sqr (m : mat3) : fnorm m ^ 2 = sq_frobenius m.
Proof.
  unfold fnorm, sq_frobenius; simpl; rewrite Rmult_1_r.
  apply sqrt_sqrt.
  pose proof (dot_self_nonneg (row0 m)); pose proof (dot_self_nonneg (row1 m));
    pose proof (dot_self_nonneg (row2 m)); lra.
Qed.

Lemma sq_frobenius_nonneg (m : mat3) : 0 <= sq_frobenius m.
Proof.
  unfold sq_frobenius.
  pose proof (dot_self_nonneg (row0 m)); pose proof (dot_self_nonneg (row1 m));
    pose proof (dot_self_nonneg (row2 m)); lra.
Qed.

(** Squaring the norms of line 221 gives back the sums of squares. *)
Lemma L_reg1_spec (r : registration) : L_reg1 r = registration_loss_spec r.
Proof.
  unfold L_reg1, registration_loss_spec.
  rewrite fnorm_sqr, !vnorm_sqr; reflexivity.
Qed.

Lemma L_reg1_entries (r : registration) : L_reg1 r = registration_loss_entries r.
Proof.
  rewrite L_reg1_spec.
  destruct r as [[[a b c] [d e f] [g h i]] [[s1 s2 s3] [s4 s5 s6] [s7 s8 s9]] [t1 t2 t3]
                 [[a' b' c'] [d' e' f'] [g' h' i']] [[u1 u2 u3] [u4 u5 u6] [u7 u8 u9]]
                 [w1 w2 w3]].
  unfold registration_loss_spec, registration_loss_entries, sq_frobenius, sum3, entry,
    coordinate, kronecker, diagonal, msub, mmul, mtrans, eye3, vsub, dot;
    cbn [R_pred S_pred t_pred R_gt S_gt t_gt row0 row1 row2 vx vy vz Nat.eqb
         mcol0 mcol1 mcol2 mulMV vadd vscale].
  ring.
Qed.

Lemma sumR_total (l : list R) : sumR l = total l.
Proof. induction l as [|a l IH]; simpl; [reflexivity | rewrite <- IH; reflexivity]. Qed.

Lemma tensor_mean_nil : tensor_mean [] = None.
Proof.
  unfold tensor_mean, fdiv; cbn [length INR].
  destruct (Req_dec_T 0 0) as [_ | H]; [reflexivity | contradiction H; reflexivity].
Qed.

Lemma tensor_mean_cons (a : R) (l : list R) :
  tensor_mean (a :: l) = Some (sumR (a :: l) / INR (length (a :: l))).
Proof.
  unfold tensor_mean, fdiv.
  destruct (Req_dec_T (INR (length (a :: l))) 0) as [H | _]; [| reflexivity].
  exfalso; revert H; apply not_0_INR; cbn [length]; lia.
Qed.

Lemma tensor_mean_average (l : list R) : tensor_mean l = batch_average l.
Proof.
  destruct l as [|a l]; [apply tensor_mean_nil |].
  rewrite tensor_mean_cons, sumR_total; reflexivity.
Qed.

(** C7: the loss module returns (mean registration loss + chamfer distance,
    mean registration loss, chamfer distance).  The registration loss of a
    batch element is the sum of the nine squared entries of [R_gt^T R - I],
    of the three squared differences of the diagonal entries of [S] and
    [S_gt] and of the three squared differences of the coordinates of [t]
    and [t_gt]; the mean is the total over the batch divided by the batch
    size.  The right-hand side is written from these words, entry by entry,
    with no definition of the module but the chamfer distance. *)
Theorem loss_forward_spec (x_aligned y : list cloud) (batch : list registration) :
  HEGN_Loss_forward x_aligned y batch
  = match chamfer_distance x_aligned y,
          batch_average (map registration_loss_entries batch) with
    | Some L_chamfer, Some L_reg => Some (L_reg + L_chamfer, L_reg, L_chamfer)
    | _, _ => None
    end.
Proof.
  unfold HEGN_Loss_forward; cbv zeta.
  rewrite (map_ext L_reg1 registration_loss_entries L_reg1_entries), tensor_mean_average.
  destruct (chamfer_distance x_aligned y) as [L_chamfer|]; reflexivity.
Qed.

Lemma registration_loss_nonneg (r : registration) : 0 <= registration_loss_spec r.
Proof.
  unfold registration_loss_spec.
  pose proof (sq_frobenius_nonneg (msub (mmul (mtrans (R_gt r)) (R_pred r)) eye3)).
  pose proof (dot_self_nonneg (vsub (diagonal (S_pred r)) (diagonal (S_gt r)))).
  pose proof (dot_self_nonneg (vsub (t_pred r) (t_gt r))).
  lra.
Qed.

Lemma sumR_nonneg (l : list R) : Forall (fun a => 0 <= a) l -> 0 <= sumR l.
Proof. induction 1; simpl; lra. Qed.

Lemma sumR_zero (l : list R) : Forall (fun a => a = 0) l -> sumR l = 0.
Proof. induction 1; simpl; lra. Qed.

Lemma INR_length_pos {A : Type} (l : list A) : (0 < length l)%nat -> 0 < INR (length l).
Proof. intros H; apply lt_0_INR, H. Qed.

(** The mean of a list that is not empty. *)
Lemma meanR_nonneg (l : list R) :
  (0 < length l)%nat -> Forall (fun a => 0 <= a) l -> 0 <= meanR l.
Proof.
  intros Hl H; unfold meanR, Rdiv.
  apply Rmult_le_pos; [apply sumR_nonneg; exact H |].
  left; apply Rinv_0_lt_compat, INR_length_pos, Hl.
Qed.

Lemma meanR_zero (l : list R) :
  (0 < length l)%nat -> Forall (fun a => a = 0) l -> meanR l = 0.
Proof.
  intros Hl H; unfold meanR; rewrite (sumR_zero l H).
  pose proof (INR_length_pos l Hl); field; lra.
Qed.

Lemma sqdist_nonneg (p q : vec3) : 0 <= sqdist p q.
Proof. apply dot_self_nonneg. Qed.

Lemma sqdist_refl (p : vec3) : sqdist p p = 0.
Proof. destruct p; unfold sqdist, vsub, dot; simpl; ring. Qed.

Lemma fold_Rmin_nonneg (p : vec3) (qs : list vec3) (a : R) :
  0 <= a -> 0 <= fold_right (fun q' m => Rmin (sqdist p q') m) a qs.
Proof.
  intros Ha; induction qs as [|q qs IH]; simpl; [exact Ha|].
  apply Rmin_glb; [apply sqdist_nonneg | exact IH].
Qed.

Lemma fold_Rmin_le_init (p : vec3) (qs : list vec3) (a : R) :
  fold_right (fun q' m => Rmin (sqdist p q') m) a qs <= a.
Proof.
  induction qs as [|q qs IH]; simpl; [lra|].
  eapply Rle_trans; [apply Rmin_r | exact IH].
Qed.

Lemma fold_Rmin_le_in (p : vec3) (qs : list vec3) (a : R) (q : vec3) :
  In q qs -> fold_right (fun q' m => Rmin (sqdist p q') m) a qs <= sqdist p q.
Proof.
  induction qs as [|q' qs IH]; simpl; [contradiction|].
  intros [-> | Hin]; [apply Rmin_l|].
  eapply Rle_trans; [apply Rmin_r | apply IH, Hin].
Qed.

Lemma nearest_sq_nonneg (p : vec3) (ys : cloud) : 0 <= nearest_sq p ys.
Proof.
  destruct ys as [|q qs]; simpl; [lra|].
  apply fold_Rmin_nonneg, sqdist_nonneg.
Qed.

Lemma nearest_sq_self (p : vec3) (ys : cloud) : In p ys -> nearest_sq p ys = 0.
Proof.
  intros Hin; apply Rle_antisym; [| apply nearest_sq_nonneg].
  destruct ys as [|q qs]; [contradiction|]; simpl.
  destruct Hin as [-> | Hin].
  - eapply Rle_trans; [apply fold_Rmin_le_init | rewrite sqdist_refl; lra].
  - eapply Rle_trans; [apply (fold_Rmin_le_in p qs _ p Hin) | rewrite sqdist_refl; lra].
Qed.

Lemma cham_dir_nonneg (x y : cloud) : (0 < length x)%nat -> 0 <= cham_dir x y.
Proof.
  intros Hx; unfold cham_dir; apply meanR_nonneg; [rewrite length_map; exact Hx |].
  apply Forall_forall.
  intros a Ha; apply in_map_iff in Ha; destruct Ha as (p & <- & _).
  apply nearest_sq_nonneg.
Qed.

Lemma cham_dir_self (x : cloud) : (0 < length x)%nat -> cham_dir x x = 0.
Proof.
  intros Hx; unfold cham_dir; apply meanR_zero; [rewrite length_map; exact Hx |].
  apply Forall_forall.
  intros a Ha; apply in_map_iff in Ha; destruct Ha as (p & <- & Hp).
  apply nearest_sq_self, Hp.
Qed.

Lemma Forall_map2 {A B C : Type} (PA : A -> Prop) (PB : B -> Prop) (P : C -> Prop)
    (f : A -> B -> C) (l : list A) (l' : list B) :
  (forall a b, PA a -> PB b -> P (f a b)) ->
  Forall PA l -> Forall PB l' -> Forall P (map2 f l l').
Proof.
  intros H Hl; revert l'; induction Hl as [|a l Ha Hl IH]; intros l' Hl';
    [constructor |].
  destruct Hl' as [|b l' Hb Hl']; cbn [map2]; constructor; auto.
Qed.

Lemma map2_length_same {A B C : Type} (f : A -> B -> C) (l : list A) (l' : list B) :
  length l = length l' -> length (map2 f l l') = length l.
Proof.
  revert l'; induction l as [|a l IH]; intros [|b l'] H; cbn [map2 length] in *;
    try discriminate; [reflexivity |].
  f_equal; apply IH; lia.
Qed.

Lemma chamfer_distance_defined (xs ys : list cloud) :
  length xs = length ys ->
  chamfer_distance xs ys
  = Some (meanR (map2 cham_dir xs ys) + meanR (map2 cham_dir ys xs)).
Proof. intros H; unfold chamfer_distance; rewrite H, Nat.eqb_refl; reflexivity. Qed.

Lemma chamfer_sum_nonneg (xs ys : list cloud) :
  (0 < length xs)%nat -> length xs = length ys ->
  Forall inhabited_cloud xs -> Forall inhabited_cloud ys ->
  0 <= meanR (map2 cham_dir xs ys) + meanR (map2 cham_dir ys xs).
Proof.
  intros Hx Hlen Hxs Hys.
  assert (H1 : 0 <= meanR (map2 cham_dir xs ys)).
  { apply meanR_nonneg; [rewrite map2_length_same by exact Hlen; exact Hx |].
    apply (Forall_map2 inhabited_cloud inhabited_cloud); [| exact Hxs | exact Hys].
    intros a b Ha _; apply cham_dir_nonneg, Ha. }
  assert (H2 : 0 <= meanR (map2 cham_dir ys xs)).
  { apply meanR_nonneg; [rewrite map2_length_same by (symmetry; exact Hlen); lia |].
    apply (Forall_map2 inhabited_cloud inhabited_cloud); [| exact Hys | exact Hxs].
    intros a b Ha _; apply cham_dir_nonneg, Ha. }
  lra.
Qed.

Lemma map2_diag_zero (xs : list cloud) :
  Forall inhabited_cloud xs -> Forall (fun a => a = 0) (map2 cham_dir xs xs).
Proof.
  induction 1 as [|x xs Hx Hxs IH]; cbn [map2]; constructor;
    [apply cham_dir_self, Hx | exact IH].
Qed.

Lemma chamfer_distance_self (xs : list cloud) :
  (0 < length xs)%nat -> Forall inhabited_cloud xs -> chamfer_distance xs xs = Some 0.
Proof.
  intros Hx Hxs; rewrite chamfer_distance_defined by reflexivity.
  rewrite (meanR_zero _ (eq_ind_r (fun n => (0 < n)%nat) Hx
                           (map2_length_same cham_dir xs xs eq_refl))
             (map2_diag_zero xs Hxs)).
  f_equal; lra.
Qed.

Lemma registration_loss_exact (r : registration) :
  exact_prediction r -> registration_loss_spec r = 0.
Proof.
  intros (HR & HS & Ht & [Ho _]); unfold registration_loss_spec.
  rewrite HR, HS, Ht, Ho.
  unfold sq_frobenius; destruct (diagonal (S_gt r)), (t_gt r).
  unfold msub, eye3, vsub, dot; simpl; ring.
Qed.

Lemma tensor_mean_defined (l : list R) :
  (0 < length l)%nat -> tensor_mean l = Some (sumR l / INR (length l)).
Proof.
  destruct l as [|a l]; cbn [length]; [lia | intros _; apply tensor_mean_cons].
Qed.

(** C8 (as amended): on every input with at least one batch element, cloud
    batches of equal size and no empty cloud, the registration component and the
    chamfer component are both non-negative; and the total loss is exactly
    zero when every prediction equals its ground truth (with an orthonormal
    rotation) and the aligned cloud is the target cloud. *)
Theorem loss_nonneg_and_zero (x_aligned y : list cloud) (batch : list registration) :
  (0 < length batch)%nat ->
  (0 < length x_aligned)%nat -> length x_aligned = length y ->
  Forall inhabited_cloud x_aligned -> Forall inhabited_cloud y ->
  (exists L_reg L_chamfer,
      HEGN_Loss_forward x_aligned y batch = Some (L_reg + L_chamfer, L_reg, L_chamfer)
      /\ 0 <= L_reg /\ 0 <= L_chamfer)
  /\ (Forall exact_prediction batch -> x_aligned = y ->
      HEGN_Loss_forward x_aligned y batch = Some (0, 0, 0)).
Proof.
  intros Hb Hx Hlen Hxs Hys; unfold HEGN_Loss_forward; cbv zeta.
  assert (Hbl : (0 < length (map L_reg1 batch))%nat) by (rewrite length_map; exact Hb).
  rewrite (tensor_mean_defined _ Hbl).
  fold (meanR (map L_reg1 batch)).
  rewrite (map_ext L_reg1 registration_loss_spec L_reg1_spec).
  assert (Hrl : (0 < length (map registration_loss_spec batch))%nat)
    by (rewrite length_map; exact Hb).
  split.
  - rewrite (chamfer_distance_defined _ _ Hlen).
    do 2 eexists; split; [reflexivity |].
    split; [| apply chamfer_sum_nonneg; assumption].
    apply meanR_nonneg; [exact Hrl |].
    apply Forall_forall; intros a Ha.
    apply in_map_iff in Ha; destruct Ha as (r & <- & _).
    apply registration_loss_nonneg.
  - intros Hex ->.
    rewrite (chamfer_distance_self _ Hx Hxs).
    assert (Hz : meanR (map registration_loss_spec batch) = 0).
    { apply meanR_zero; [exact Hrl |].
      apply Forall_forall; intros a Ha.
      apply in_map_iff in Ha; destruct Ha as (r & <- & Hr).
      apply registration_loss_exact.
      rewrite Forall_forall in Hex; apply Hex, Hr. }
    rewrite Hz; repeat f_equal; lra.
Qed.

(** One exact prediction and one cloud compared with itself. *)
Lemma loss_nonneg_and_zero_witness :
  HEGN_Loss_forward two_points two_points [exact_registration] = Some (0, 0, 0).
Proof.
  apply (proj2 (loss_nonneg_and_zero two_points two_points [exact_registration]
                  (Nat.lt_0_succ 0) (Nat.lt_0_succ 0) eq_refl
                  (Forall_cons (P := inhabited_cloud) [e1; e2] (Nat.lt_0_succ 1)
                     (Forall_nil _))
                  (Forall_cons (P := inhabited_cloud) [e1; e2] (Nat.lt_0_succ 1)
                     (Forall_nil _)))).
  - constructor; [| constructor].
    unfold exact_prediction, exact_registration; simpl.
    repeat split; try reflexivity; apply orthogonal_quarter_turn_z.
  - reflexivity.
Defined.

(** C8, the input that the wording "for all inputs" misses: on a batch with
    no element [L_reg.mean()] is the mean of an empty tensor, which is NaN,
    so no non-negative registration component is returned, although the
    clouds are a valid pair. *)
Lemma loss_of_empty_batch :
  HEGN_Loss_forward two_points two_points [] = None.
Proof.
  unfold HEGN_Loss_forward; cbv zeta; cbn [map].
  rewrite tensor_mean_nil.
  destruct (chamfer_distance two_points two_points); reflexivity.
Qed.

(** ** Shapes: the primitives on shapes that fit *)

Section ShapeProperties.

Import Shape.
Local Open Scope nat_scope.

Lemma bdim_refl (a : nat) : bdim a a = Some a.
Proof. unfold bdim; rewrite Nat.eqb_refl; reflexivity. Qed.

Lemma bdim_1_r (a : nat) : bdim a 1 = Some a.
Proof.
  unfold bdim; destruct (a =? 1) eqn:E; [| reflexivity].
  apply Nat.eqb_eq in E; subst; reflexivity.
Qed.

Lemma bdim_1_l (b : nat) : bdim 1 b = Some b.
Proof.
  unfold bdim; destruct (1 =? b) eqn:E; [| reflexivity].
  apply Nat.eqb_eq in E; subst; reflexivity.
Qed.

Lemma shape_eqb_refl (s : shape) : shape_eqb s s = true.
Proof. induction s as [|a s IH]; simpl; [| rewrite Nat.eqb_refl, IH]; reflexivity. Qed.

Lemma shape_eqb_length (s t : shape) : shape_eqb s t = true -> length s = length t.
Proof.
  revert t; induction s as [|a s IH]; intros [|b t]; simpl; try discriminate; auto.
  intros H; apply andb_prop in H; destruct H as [_ H]; f_equal; apply IH, H.
Qed.

Lemma shape_view_ok (target s : shape) : numel s = numel target -> view target s = Some target.
Proof. intros H; unfold view; rewrite H, Nat.eqb_refl; reflexivity. Qed.

Ltac shape_step :=
  cbn [bind rev app broadcast_rev fst snd];
  rewrite ?bdim_refl, ?bdim_1_r, ?bdim_1_l, ?Nat.eqb_refl, ?Nat.leb_refl,
    ?shape_eqb_refl, ?orb_true_r, ?andb_true_r;
  cbn [bind rev app orb andb].

Lemma broadcast_same5 (a b c d e : nat) :
  broadcast [a; b; c; d; e] [a; b; c; d; e] = Some [a; b; c; d; e].
Proof. unfold broadcast; repeat shape_step; reflexivity. Qed.

Lemma broadcast_same4 (a b c d : nat) :
  broadcast [a; b; c; d] [a; b; c; d] = Some [a; b; c; d].
Proof. unfold broadcast; repeat shape_step; reflexivity. Qed.

Lemma broadcast_same3 (a b c : nat) : broadcast [a; b; c] [a; b; c] = Some [a; b; c].
Proof. unfold broadcast; repeat shape_step; reflexivity. Qed.

Lemma broadcast_same2 (a b : nat) : broadcast [a; b] [a; b] = Some [a; b].
Proof. unfold broadcast; repeat shape_step; reflexivity. Qed.

Lemma broadcast_query (a b c d e : nat) :
  broadcast [a; b; c; d; e] [a; b; c; d; 1] = Some [a; b; c; d; e].
Proof. unfold broadcast; repeat shape_step; reflexivity. Qed.

Lemma broadcast_weights (a b c d e : nat) :
  broadcast [a; b; 1; d; e] [a; b; c; d; e] = Some [a; b; c; d; e].
Proof. unfold broadcast; repeat shape_step; reflexivity. Qed.

Lemma shape_VNLinearLeakyReLU_ok (c_in c_out b : nat) (rest : shape) :
  VNLinearLeakyReLU c_in c_out (b :: c_in :: 3 :: rest) = Some (b :: c_out :: 3 :: rest).
Proof. unfold VNLinearLeakyReLU; rewrite Nat.eqb_refl; reflexivity. Qed.

Lemma shape_get_graph_feature_ok (b c n k : nat) :
  k <= n -> get_graph_feature [b; c; 3; n] k = Some [b; 2 * c; 3; n; k].
Proof.
  intros H; unfold get_graph_feature.
  apply Nat.leb_le in H; rewrite H; reflexivity.
Qed.

Lemma shape_VNDGCNN_ok (c_in c_out k b n : nat) :
  k <= n -> VNDGCNN c_in c_out k [b; c_in; 3; n] = Some [b; c_out; 3; n].
Proof.
  intros H; unfold VNDGCNN.
  apply Nat.leb_le in H; rewrite H, Nat.eqb_refl; reflexivity.
Qed.

(** *** The modules on shapes that fit *)

Lemma shape_CrossContext_forward_ok (C k b n : nat) :
  k <= n -> C / 16 * 16 = C ->
  CrossContext_forward C 16 k [b; C; 3; n] [b; C; 3; n] = Some [b; C; 3; n].
Proof.
  intros Hk HC; unfold CrossContext_forward.
  rewrite shape_VNLinearLeakyReLU_ok; cbn [bind].
  change (channel_equi_vec_normalize [b; C; 3; n]) with (Some [b; C; 3; n]); cbn [bind].
  rewrite (shape_get_graph_feature_ok b C n k Hk); cbn [bind].
  rewrite shape_VNLinearLeakyReLU_ok; cbn [bind].
  change (channel_equi_vec_normalize [b; C; 3; n; k]) with (Some [b; C; 3; n; k]);
    cbn [bind].
  change (unsqueeze (length [b; C; 3; n]) [b; C; 3; n]) with (Some [b; C; 3; n; 1]);
    cbn [bind].
  rewrite broadcast_query; cbn [bind].
  change (reduce_dim 2 [b; C; 3; n; k]) with (Some [b; C; n; k]); cbn [bind].
  set (q := C / 16) in *.
  assert (Hnum : numel [b; C; n; k] = numel [b; q; 16; n; k]).
  { unfold numel; cbn [fold_right]; rewrite <- HC; ring. }
  rewrite (shape_view_ok _ _ Hnum); cbn [bind].
  change (expand [None; None; Some 16; None; None] [b; q; 16; n; k])
    with (Some [b; q; 16; n; k]); cbn [bind].
  rewrite (shape_view_ok _ _ (eq_sym Hnum)); cbn [bind].
  change (unsqueeze 2 [b; C; n; k]) with (Some [b; C; 1; n; k]); cbn [bind].
  rewrite broadcast_weights; cbn [bind].
  change (reduce_last false [b; C; 3; n; k]) with (Some [b; C; 3; n]); cbn [bind].
  apply broadcast_same4.
Qed.

Lemma shape_GlobalContext_forward_ok (C b n : nat) :
  GlobalContext_forward (C * 2) C [b; C; 3; n] = Some [b; C; 3; n].
Proof.
  unfold GlobalContext_forward.
  change (mean_pool true [b; C; 3; n]) with (Some [b; C; 3; 1]); cbn [bind].
  assert (He : expand (map Some [b; C; 3; n]) [b; C; 3; 1] = Some [b; C; 3; n]).
  { cbn [map expand]; repeat shape_step; reflexivity. }
  rewrite He; cbn [bind].
  match goal with
  | |- context [cat_dim1 ?l] => assert (Hc : cat_dim1 l = Some [b; C * 2; 3; n])
  end.
  { cbn [cat_dim1 cat_dim1_from]; repeat shape_step.
    replace (C + C) with (C * 2) by lia; reflexivity. }
  rewrite Hc; cbn [bind].
  apply shape_VNLinearLeakyReLU_ok.
Qed.

Lemma shape_EquivariantFeatureExtraction_forward_ok (c_in c_out k b n : nat) :
  k <= n -> c_out / 16 * 16 = c_out ->
  EquivariantFeatureExtraction_forward (EFE c_in c_out k) [b; c_in; 3; n] [b; c_in; 3; n]
  = Some ([b; c_out; 3; n], [b; c_out; 3; n]).
Proof.
  intros Hk HC; unfold EquivariantFeatureExtraction_forward; cbn [efe_in efe_out efe_k].
  rewrite (shape_VNDGCNN_ok c_in c_out k b n Hk); cbn [bind].
  repeat (rewrite (shape_CrossContext_forward_ok c_out k b n Hk HC); cbn [bind]).
  repeat (rewrite shape_GlobalContext_forward_ok; cbn [bind]).
  reflexivity.
Qed.

Lemma shape_parallel_dir_ok (b d n : nat) : parallel_dir [b; d; n] = Some [b; d; n].
Proof.
  unfold parallel_dir.
  change (reduce_dim 1 [b; d; n]) with (Some [b; n]); cbn [bind].
  change (unsqueeze 1 [b; n]) with (Some [b; 1; n]); cbn [bind nth_error].
  cbn [repeat_ bind]; rewrite !Nat.mul_1_l, Nat.mul_1_r.
  apply broadcast_same3.
Qed.

Lemma shape_InvariantMapping_forward_ok (b c n t : nat) :
  t <> 0 ->
  InvariantMapping_forward [b; c; 3; n] [b; c; 3; n] t
  = Some ([b; c; 3; n / t], [b; c; 3; n / t]).
Proof.
  intros Ht; unfold InvariantMapping_forward.
  change (reduce_dim 1 [b; c; 3; n]) with (Some [b; 3; n]); cbn [bind].
  rewrite shape_parallel_dir_ok; cbn [bind].
  cbn [einsum_bcdn_bdn_bnc]; repeat shape_step.
  cbn [einsum_bnc_bnc_bn]; repeat shape_step.
  cbn [nth_error bind].
  destruct t as [|t']; [contradiction|].
  set (t := S t') in *.
  assert (Hk : (n / t <=? n) = true).
  { apply Nat.leb_le, Nat.Div0.div_le_upper_bound; nia. }
  unfold topk_last; cbn [rev app]; rewrite Hk; cbn [rev app bind].
  change (unsqueeze 1 [b; n / t]) with (Some [b; 1; n / t]); cbn [bind].
  change (unsqueeze 2 [b; 1; n / t]) with (Some [b; 1; 1; n / t]); cbn [bind].
  cbn [expand]; repeat shape_step.
  unfold gather_last; cbn [removelast all_le]; repeat shape_step.
  reflexivity.
Qed.

Lemma shape_block_ok (self : HEGN) (c_in c_out k i t b n : nat) :
  nth_error (self_topk self) i = Some t ->
  k <= n -> c_out / 16 * 16 = c_out -> t <> 0 ->
  block self (EFE c_in c_out k) i [b; c_in; 3; n] [b; c_in; 3; n]
  = Some ([b; c_out; 3; n / t], [b; c_out; 3; n / t]).
Proof.
  intros Hi Hk HC Ht; unfold block.
  rewrite (shape_EquivariantFeatureExtraction_forward_ok c_in c_out k b n Hk HC); cbn [bind].
  rewrite Hi; cbn [bind].
  apply shape_InvariantMapping_forward_ok, Ht.
Qed.

Lemma shape_Alignment_forward_ok (b c : nat) :
  Alignment_forward [b; c; 3] [b; c; 3] = Some ([b; 3; 3], [b; 3]).
Proof.
  unfold Alignment_forward.
  cbn [einsum_bcd_bce_bde]; repeat shape_step.
  cbn [svd bind matmul Nat.eqb]; repeat shape_step.
  change (reduce_dim 1 [b; c; 3]) with (Some [b; 3]); cbn [bind].
  rewrite broadcast_same2; reflexivity.
Qed.

(** C3 (as amended): for clouds given channel first, as [[B,3,N]], a
    configuration of exactly four channel widths that are multiples of the
    16 channels of an attention head, positive divisors and neighbour counts
    that fit the points left in each block, and [num_blocks = 4], the forward
    pass returns a rotation of shape [[B,3,3]] and a scale of shape [[B,3]]. *)
Theorem forward_shapes (args : Args) (B N o1 o2 o3 o4 k1 k2 k3 k4 t1 t2 t3 t4 : nat) :
  num_blocks args = 4%Z ->
  vngcnn_out args = [o1; o2; o3; o4] ->
  firstn 4 (vngcnn_in args) = [1; o1; o2; o3] ->
  firstn 4 (n_knn args) = [k1; k2; k3; k4] ->
  firstn 4 (topk args) = [t1; t2; t3; t4] ->
  o1 / 16 * 16 = o1 -> o2 / 16 * 16 = o2 -> o3 / 16 * 16 = o3 -> o4 / 16 * 16 = o4 ->
  t1 <> 0 -> t2 <> 0 -> t3 <> 0 -> t4 <> 0 ->
  k1 <= N -> k2 <= N / t1 -> k3 <= N / t1 / t2 -> k4 <= N / t1 / t2 / t3 ->
  HEGN_run args [B; 3; N] [B; 3; N] = Some ([B; 3; 3], [B; 3]).
Proof.
  intros Hnb Hout Hin Hknn Htopk Ho1 Ho2 Ho3 Ho4 Ht1 Ht2 Ht3 Ht4 Hk1 Hk2 Hk3 Hk4.
  assert (Hnth : forall (l : list nat) (a b c d : nat),
             firstn 4 l = [a; b; c; d] ->
             nth_error l 0 = Some a /\ nth_error l 1 = Some b
             /\ nth_error l 2 = Some c /\ nth_error l 3 = Some d).
  { intros l a b c d H.
    destruct l as [|x0 [|x1 [|x2 [|x3 l]]]]; try discriminate.
    cbn in H; injection H as -> -> -> ->; repeat split. }
  destruct (Hnth _ _ _ _ _ Hin) as (Hi0 & Hi1 & Hi2 & Hi3).
  destruct (Hnth _ _ _ _ _ Hknn) as (Hn0 & Hn1 & Hn2 & Hn3).
  destruct (Hnth _ _ _ _ _ Htopk) as (Hp0 & Hp1 & Hp2 & Hp3).
  unfold HEGN_run, HEGN_init.
  rewrite Hi0, Hi1, Hi2, Hi3, Hn0, Hn1, Hn2, Hn3, Hout, Hnb.
  cbn [nth_error bind rev app list_sum].
  unfold HEGN_forward.
  cbn [self_num_blocks self_topk feature_extraction1 feature_extraction2
       feature_extraction3 feature_extraction4 hierarchical_in hierarchical_out].
  change (unsqueeze 1 [B; 3; N]) with (Some [B; 1; 3; N]); cbn [bind].
  match goal with
  | |- context [block ?s _ 0 _ _] => set (self := s)
  end.
  rewrite (shape_block_ok self 1 o1 k1 0 t1 B N Hp0 Hk1 Ho1 Ht1); cbn [bind].
  rewrite (shape_block_ok self o1 o2 k2 1 t2 B _ Hp1 Hk2 Ho2 Ht2); cbn [bind].
  rewrite (shape_block_ok self o2 o3 k3 2 t3 B _ Hp2 Hk3 Ho3 Ht3); cbn [bind].
  rewrite (shape_block_ok self o3 o4 k4 3 t4 B _ Hp3 Hk4 Ho4 Ht4); cbn [bind].
  change (range 4) with [0; 1; 2; 3].
  cbn [pool_blocks nth_error bind mean_pool reduce_last removelast set_nth].
  unfold HierarchicalAggregation_forward.
  cbn [cat_dim1 cat_dim1_from]; repeat shape_step.
  replace (o1 + o2 + o3 + o4) with (o1 + (o2 + (o3 + (o4 + 0)))) by lia.
  rewrite shape_VNLinearLeakyReLU_ok; cbn [bind].
  apply shape_Alignment_forward_ok.
Qed.

Lemma forward_shapes_witness :
  HEGN_run four_block_args [2; 3; 1024] [2; 3; 1024] = Some ([2; 3; 3], [2; 3]).
Proof.
  apply (forward_shapes four_block_args 2 1024 16 32 64 128 16 16 16 4 4 4 4 4);
    try reflexivity; try discriminate;
    apply Nat.leb_le; vm_compute; reflexivity.
Defined.

(** C3 (as stated) fails.  Clouds of three points have the shape [[B,N,3]]
    and [[B,3,N]] at once: the pass completes and returns a scale of shape
    [[2,3]], not [[2,3,3]].  On clouds of 1024 points given as [[B,N,3]] the
    first layer meets [N] where it needs the 3-axis and the pass stops; the
    same clouds given as [[B,3,N]] yield a scale of shape [[2,3]]. *)
Lemma forward_scale_is_a_vector :
  HEGN_run three_point_args [2; 3; 3] [2; 3; 3] = Some ([2; 3; 3], [2; 3])
  /\ HEGN_run four_block_args [2; 1024; 3] [2; 1024; 3] = None
  /\ HEGN_run four_block_args [2; 3; 1024] [2; 3; 1024] = Some ([2; 3; 3], [2; 3]).
Proof. repeat split; vm_compute; reflexivity. Qed.

(** *** What a returning pass tells about its arguments *)

Ltac inv_bind H :=
  match type of H with
  | bind ?o _ = Some _ =>
      let E := fresh "E" in
      destruct o eqn:E; [cbn [bind] in H | discriminate H]
  end.

Lemma shape_expand_length (sizes : list (option nat)) (s r : shape) :
  expand sizes s = Some r -> length r = length sizes.
Proof.
  revert s r; induction sizes as [|o sizes IH]; intros s r H.
  - destruct s; [injection H as <-; reflexivity | discriminate].
  - destruct s as [|a s]; [destruct o; discriminate|].
    destruct o as [m|]; cbn [expand] in H.
    + destruct ((a =? m) || (a =? 1)); [| discriminate].
      inv_bind H; injection H as <-; cbn [length]; f_equal; eapply IH; eassumption.
    + inv_bind H; injection H as <-; cbn [length]; f_equal; eapply IH; eassumption.
Qed.

Lemma shape_gather_last_eq (t idx r : shape) : gather_last t idx = Some r -> r = idx.
Proof.
  unfold gather_last; destruct t; [discriminate|]; destruct idx; [discriminate|].
  destruct (all_le _ _); [| discriminate]; congruence.
Qed.

(** Every block hands on tensors of four axes. *)
Lemma shape_InvariantMapping_forward_rank (fx fy fx' fy' : shape) (t : nat) :
  InvariantMapping_forward fx fy t = Some (fx', fy') ->
  length fx' = 4 /\ length fy' = 4.
Proof.
  unfold InvariantMapping_forward; intros H.
  repeat inv_bind H.
  destruct t as [|t']; [discriminate|].
  inv_bind H.
  destruct fx as [|xb [|xc [|xd [|xn [|]]]]]; try discriminate.
  repeat inv_bind H.
  injection H as <- <-.
  match goal with
  | He : expand _ _ = Some ?i, H1 : gather_last _ ?i = Some ?a,
    H2 : gather_last _ ?i = Some ?b |- _ =>
      apply shape_expand_length in He; apply shape_gather_last_eq in H1, H2; subst a b
  end.
  split; assumption.
Qed.

Lemma shape_block_rank (self : HEGN) (fe : EquivariantFeatureExtraction) (i : nat)
    (fx fy fx' fy' : shape) :
  block self fe i fx fy = Some (fx', fy') ->
  length fx' = 4 /\ length fy' = 4 /\ i < length (self_topk self).
Proof.
  unfold block; intros H.
  inv_bind H; destruct p as [gx gy]; inv_bind H.
  apply shape_InvariantMapping_forward_rank in H; destruct H as [H1 H2].
  repeat split; try assumption.
  apply nth_error_Some; congruence.
Qed.

Lemma shape_set_nth_spec {A : Type} (i : nat) (v : A) (l l' : list A) :
  set_nth i v l = Some l' ->
  length l' = length l
  /\ forall j, j <> i -> nth_error l' j = nth_error l j.
Proof.
  revert l l'; induction i as [|i IH]; intros [|a l] l' H; cbn [set_nth] in H;
    try discriminate.
  - injection H as <-; split; [reflexivity|].
    intros [|j] Hj; [contradiction | reflexivity].
  - inv_bind H; injection H as <-.
    destruct (IH _ _ E) as [Hl Hn]; split; [cbn [length]; congruence|].
    intros [|j] Hj; [reflexivity | cbn [nth_error]; apply Hn; congruence].
Qed.

(** The pooling loop touches the entries it ranges over and no other, and
    it raises when it ranges past the end of the list. *)
Lemma shape_pool_blocks_spec (n s : nat) (fxb fyb fxb' fyb' : list shape) :
  pool_blocks (seq s n) fxb fyb = Some (fxb', fyb') ->
  (n = 0 \/ s + n <= length fxb)
  /\ length fxb' = length fxb
  /\ forall j, s + n <= j -> nth_error fxb' j = nth_error fxb j.
Proof.
  revert s fxb fyb; induction n as [|n IH]; intros s fxb fyb H; cbn [seq pool_blocks] in H.
  - injection H as <- <-; repeat split; auto.
  - repeat inv_bind H.
    match goal with
    | Hn : nth_error fxb s = Some _, Hs : set_nth s _ fxb = Some ?l |- _ =>
        apply shape_set_nth_spec in Hs; destruct Hs as [Hl Hk];
        assert (Hlt : s < length fxb) by (apply nth_error_Some; congruence)
    end.
    apply IH in H; destruct H as (Hb & Hl' & Hk').
    repeat split.
    + right; destruct Hb as [-> | Hb]; lia.
    + congruence.
    + intros j Hj; rewrite Hk' by lia; apply Hk; lia.
Qed.

Lemma shape_cat_dim1_from_rank (ts : list shape) (b c : nat) (rest r : shape) :
  cat_dim1_from b c rest ts = Some r ->
  length r = 2 + length rest
  /\ Forall (fun t => length t = 2 + length rest) ts.
Proof.
  revert c; induction ts as [|t ts IH]; intros c H; cbn [cat_dim1_from] in H.
  - injection H as <-; split; [reflexivity | constructor].
  - destruct t as [|b' [|c' rest']]; try discriminate.
    destruct ((b =? b') && shape_eqb rest rest') eqn:E; [| discriminate].
    apply andb_prop in E; destruct E as [_ E]; apply shape_eqb_length in E.
    destruct (IH _ H) as [Hr Hts]; split; [exact Hr|].
    constructor; [cbn [length]; lia | exact Hts].
Qed.

Lemma shape_cat_dim1_rank (ts : list shape) (r : shape) :
  cat_dim1 ts = Some r -> Forall (fun t => length t = length r) ts.
Proof.
  unfold cat_dim1; destruct ts as [|[|b [|c rest]] ts]; try discriminate.
  intros H; apply shape_cat_dim1_from_rank in H; destruct H as [Hr Hts].
  rewrite Hr; constructor; [reflexivity | exact Hts].
Qed.

Lemma shape_VNLinearLeakyReLU_rank (c_in c_out : nat) (s r : shape) :
  VNLinearLeakyReLU c_in c_out s = Some r -> length r = length s.
Proof.
  unfold VNLinearLeakyReLU.
  destruct s as [|b [|c [|[|[|[|[|d]]]] rest]]]; try discriminate.
  destruct (c =? c_in); [| discriminate].
  intros H; injection H as <-; reflexivity.
Qed.

Lemma shape_HierarchicalAggregation_forward_rank (i o : nat) (blocks : list shape) (r : shape) :
  HierarchicalAggregation_forward i o blocks = Some r ->
  Forall (fun t => length t = length r) blocks.
Proof.
  unfold HierarchicalAggregation_forward; intros H; inv_bind H.
  apply shape_VNLinearLeakyReLU_rank in H; rewrite H.
  apply shape_cat_dim1_rank; assumption.
Qed.

Ltac inv_binds :=
  repeat match goal with
         | H : bind ?o _ = Some _ |- _ =>
             let E := fresh "E" in
             destruct o eqn:E; [cbn [bind] in H | discriminate H]
         | H : Some _ = Some _ |- _ => inversion H; subst; clear H
         end.

Lemma shape_Alignment_forward_rank (fx fy R S : shape) :
  Alignment_forward fx fy = Some (R, S) ->
  length fx = 3 /\ length R = 3 /\ length S = 2.
Proof.
  unfold Alignment_forward; intros H.
  destruct fx as [|b [|c [|d [|]]]]; try discriminate.
  destruct fy as [|b' [|c' [|e [|]]]]; try discriminate.
  cbn [einsum_bcd_bce_bde] in H.
  inv_binds.
  cbn [svd] in *; inv_binds.
  match goal with
  | Hm : matmul _ _ = Some _, Hy : reduce_dim 1 _ = Some ?y,
    Hx : reduce_dim 1 _ = Some ?x, Hb : broadcast ?y ?x = Some _ |- _ =>
      cbn [matmul] in Hm;
      cbn [reduce_dim Nat.ltb Nat.leb length firstn skipn app] in Hy, Hx;
      destruct (d =? e); [| discriminate Hm];
      inv_binds;
      unfold broadcast in Hb; cbn [rev app broadcast_rev] in Hb
  end.
  inv_binds.
  repeat split.
Qed.

Lemma shape_HEGN_init_spec (args : Args) (self : HEGN) :
  HEGN_init args = Some self ->
  self_num_blocks self = num_blocks args
  /\ self_topk self = topk args
  /\ 4 <= length (n_knn args)
  /\ 4 <= length (vngcnn_in args)
  /\ 4 <= length (vngcnn_out args).
Proof.
  unfold HEGN_init; intros H.
  inv_binds; cbn [self_num_blocks self_topk].
  repeat split;
    match goal with
    | E : nth_error ?l 3 = Some _ |- 4 <= length ?l =>
        apply Nat.le_succ_l, nth_error_Some; congruence
    end.
Qed.

Lemma shape_HEGN_forward_num_blocks (self : HEGN) (x y : shape) (r : shape * shape) :
  HEGN_forward self x y = Some r ->
  self_num_blocks self = 4%Z /\ 4 <= length (self_topk self).
Proof.
  unfold HEGN_forward; intros H.
  do 2 inv_bind H.
  inv_bind H; destruct p as [fx1 fy1].
  inv_bind H; destruct p as [fx2 fy2].
  inv_bind H; destruct p as [fx3 fy3].
  inv_bind H; destruct p as [fx4 fy4].
  inv_bind H; destruct p as [fxb fyb].
  do 2 inv_bind H.
  destruct r as [Rs Ss].
  match goal with
  | Hb : block _ _ 3 _ _ = Some _, Hp : pool_blocks _ _ _ = Some _,
    Ha : HierarchicalAggregation_forward _ _ fxb = Some _ |- _ =>
      destruct (shape_block_rank _ _ _ _ _ _ _ Hb) as (Hr4 & _ & Htk);
      destruct (shape_pool_blocks_spec _ _ _ _ _ _ Hp) as (Hn & _ & Hkeep);
      pose proof (shape_HierarchicalAggregation_forward_rank _ _ _ _ Ha) as Hall;
      destruct (shape_Alignment_forward_rank _ _ _ _ H) as (H3 & _)
  end.
  split; [| lia].
  set (n := Z.to_nat (self_num_blocks self)) in *.
  assert (Hge : 4 <= n).
  { destruct (Nat.le_gt_cases 4 n) as [Hle | Hlt]; [exact Hle | exfalso].
    assert (Hin : In fx4 fxb).
    { apply (nth_error_In fxb 3); rewrite Hkeep by lia; reflexivity. }
    rewrite Forall_forall in Hall; specialize (Hall fx4 Hin); lia. }
  cbn [length] in Hn; lia.
Qed.

(** C10: whenever construction and forward pass complete, [num_blocks] is 4
    and every configuration sequence has at least four elements.  The pass
    runs its four blocks and collects their four outputs whatever
    [num_blocks] is, and the pooling loop reaches only the first [num_blocks]
    of them ([shape_pool_blocks_spec]): with fewer than four a collected
    output keeps its sample axis and cannot be concatenated and aligned, with
    more than four the loop indexes past the end of the list. *)
Theorem forward_needs_four_blocks (args : Args) (x y : shape) (r : shape * shape) :
  HEGN_run args x y = Some r ->
  num_blocks args = 4%Z
  /\ 4 <= length (n_knn args) /\ 4 <= length (topk args)
  /\ 4 <= length (vngcnn_in args) /\ 4 <= length (vngcnn_out args).
Proof.
  unfold HEGN_run; intros H; inv_bind H.
  apply shape_HEGN_init_spec in E; destruct E as (Hnb & Htk & Hk & Hi & Ho).
  apply shape_HEGN_forward_num_blocks in H; destruct H as [H4 Ht].
  rewrite <- Hnb, <- Htk; repeat split; assumption.
Qed.

Lemma forward_needs_four_blocks_witness :
  num_blocks four_block_args = 4%Z
  /\ 4 <= length (n_knn four_block_args) /\ 4 <= length (topk four_block_args)
  /\ 4 <= length (vngcnn_in four_block_args)
  /\ 4 <= length (vngcnn_out four_block_args).
Proof.
  apply (forward_needs_four_blocks four_block_args [2; 3; 1024] [2; 3; 1024]
           ([2; 3; 3], [2; 3])).
  vm_compute; reflexivity.
Defined.

(** Whatever the configuration and the clouds, a pass that returns gives a
    rotation of three axes and a scale of two. *)
Lemma forward_scale_rank (args : Args) (x y R S : shape) :
  HEGN_run args x y = Some (R, S) -> length R = 3 /\ length S = 2.
Proof.
  unfold HEGN_run, HEGN_forward; intros H.
  do 3 inv_bind H.
  inv_bind H; destruct p as [fx1 fy1].
  inv_bind H; destruct p as [fx2 fy2].
  inv_bind H; destruct p as [fx3 fy3].
  inv_bind H; destruct p as [fx4 fy4].
  inv_bind H; destruct p as [fxb fyb].
  do 2 inv_bind H.
  destruct (shape_Alignment_forward_rank _ _ _ _ H) as (_ & HR & HS).
  split; assumption.
Qed.

End ShapeProperties.

(* ================================================================== *)
(** * Part III: further properties of the modules *)
(* ================================================================== *)

(** ** Soft-max *)

Lemma sumR_map_div (z : R) (l : list R) :
  sumR (map (fun a => a / z) l) = sumR l / z.
Proof.
  induction l as [|a l IH]; simpl; [unfold Rdiv; ring | rewrite IH; unfold Rdiv; ring].
Qed.

Lemma softmax_sum (l : list R) : l <> [] -> sumR (softmax l) = 1.
Proof.
  intros H; unfold softmax.
  pose proof (sumR_exp_pos l H) as Hz.
  rewrite <- (map_map exp (fun e => e / sumR (map exp l))), sumR_map_div.
  field; lra.
Qed.

Lemma softmax_pos (l : list R) : l <> [] -> Forall (fun a => 0 < a) (softmax l).
Proof.
  intros H; unfold softmax.
  pose proof (sumR_exp_pos l H) as Hz.
  apply Forall_forall; intros a Ha.
  apply in_map_iff in Ha; destruct Ha as (b & <- & _).
  apply Rdiv_lt_0_compat; [apply exp_pos | exact Hz].
Qed.

Lemma softmax_length (l : list R) : length (softmax l) = length l.
Proof. unfold softmax; apply length_map. Qed.

(** ** InvariantMapping: the score as a distribution *)



(** The descriptor of each cloud is invariant on its own: the scores do not
    change when the two feature tensors are turned by two different
    orthogonal matrices. *)
Theorem invariant_scores_independent_rotations (Rx Ry : mat3) (fx fy : feat) :
  orthogonal Rx -> orthogonal Ry ->
  InvariantMapping_scores (rotate_feat Rx fx) (rotate_feat Ry fy)
  = InvariantMapping_scores fx fy.
Proof.
  intros Hx Hy; unfold InvariantMapping_scores.
  rewrite (invariant_descriptor_rotate Rx fx Hx), (invariant_descriptor_rotate Ry fy Hy).
  reflexivity.
Qed.

(** A quarter turn of the first tensor, the second left as it is. *)
Lemma invariant_scores_independent_rotations_witness :
  InvariantMapping_scores (rotate_feat quarter_turn_z small_fx) (rotate_feat eye3 small_fy)
  = InvariantMapping_scores small_fx small_fy.
Proof.
  apply (invariant_scores_independent_rotations quarter_turn_z eye3 small_fx small_fy).
  - exact orthogonal_quarter_turn_z.
  - exact orthogonal_eye.
Defined.

(** ** CrossContext: the attention weights *)

(** The width of a head has no effect on the attention weights: any two
    non-zero widths that divide the channel count give the same weights. *)
Theorem attention_head_width_irrelevant (h1 h2 : nat) (qk : list (list (list R))) :
  h1 <> 0%nat -> h2 <> 0%nat ->
  (length qk / h1 * h1)%nat = length qk ->
  (length qk / h2 * h2)%nat = length qk ->
  attention_weights h1 qk = attention_weights h2 qk.
Proof.
  intros H1 H2 D1 D2.
  rewrite (attention_weights_per_channel h1 qk H1 D1),
    (attention_weights_per_channel h2 qk H2 D2); reflexivity.
Qed.

(** One head of two channels against two heads of one channel. *)
Lemma attention_head_width_irrelevant_witness :
  attention_weights 2 head_logits = attention_weights 1 head_logits.
Proof.
  apply (attention_head_width_irrelevant 2 1 head_logits);
    try discriminate; reflexivity.
Defined.

(** Every channel and sample with at least one neighbour gets positive
    weights that add up to one over the neighbours. *)
Theorem attention_weights_distribution (head_c : nat) (qk : list (list (list R))) :
  head_c <> 0%nat ->
  (length qk / head_c * head_c)%nat = length qk ->
  Forall (Forall (fun row => row <> [])) qk ->
  exists w,
    attention_weights head_c qk = Some w
    /\ Forall (Forall (fun row => Forall (fun a => 0 < a) row /\ sumR row = 1)) w.
Proof.
  intros Hc Hdiv Hne.
  rewrite (attention_weights_per_channel head_c qk Hc Hdiv).
  eexists; split; [reflexivity|].
  rewrite Forall_map.
  eapply Forall_impl; [| exact Hne].
  intros ch Hch; rewrite Forall_map.
  eapply Forall_impl; [| exact Hch].
  intros row Hrow.
  assert (Hs : map (fun a => a / sqrt (3 * INR (length qk))) row <> []).
  { destruct row; [contradiction | discriminate]. }
  split; [apply softmax_pos | apply softmax_sum]; exact Hs.
Qed.

Lemma attention_weights_distribution_witness :
  exists w,
    attention_weights 2 head_logits = Some w
    /\ Forall (Forall (fun row => Forall (fun a => 0 < a) row /\ sumR row = 1)) w.
Proof.
  apply (attention_weights_distribution 2 head_logits).
  - discriminate.
  - reflexivity.
  - unfold head_logits; repeat constructor; discriminate.
Defined.

(** ** Alignment: proper rotations, and exact recovery on a frame *)

(** The returned matrix is a proper rotation when the cross-covariance has a
    positive determinant and a reflection when it has a negative one. *)
Theorem alignment_rotation_sign
    (svd : mat3 -> mat3 * vec3 * mat3) (fx fy : list vec3) :
  length fx = length fy ->
  svd_spec (cross_covariance fx fy) (svd (cross_covariance fx fy)) ->
  exists Rm S,
    Alignment_forward1 svd fx fy = Some (Rm, S)
    /\ (0 < det3 (cross_covariance fx fy) -> det3 Rm = 1)
    /\ (det3 (cross_covariance fx fy) < 0 -> det3 Rm = -1).
Proof.
  intros Hlen Hs.
  exists (alignment_rotation svd fx fy), (Alignment_scale fx fy).
  split; [apply Alignment_forward1_eq, Hlen |].
  unfold alignment_rotation.
  destruct (svd (cross_covariance fx fy)) as [[u s] vh].
  split; intros Hd.
  - exact (svd_rotation_det_pos _ u vh s Hs Hd).
  - exact (svd_rotation_det_sign _ u vh s Hs Hd).
Qed.

(** The unit frame against its mirror image. *)
Lemma alignment_rotation_sign_witness :
  exists Rm S,
    Alignment_forward1 svd_of_mirror unit_frame mirrored_frame = Some (Rm, S)
    /\ (0 < det3 (cross_covariance unit_frame mirrored_frame) -> det3 Rm = 1)
    /\ (det3 (cross_covariance unit_frame mirrored_frame) < 0 -> det3 Rm = -1).
Proof.
  apply (alignment_rotation_sign svd_of_mirror unit_frame mirrored_frame).
  - reflexivity.
  - apply svd_of_mirror_spec, cross_covariance_mirrored.
Defined.

Lemma mdiag_central (k : R) (m : mat3) :
  mmul (mdiag (V3 k k k)) m = mmul m (mdiag (V3 k k k)).
Proof. ring3. Qed.

Lemma mdiag_mmul (s t : vec3) : mmul (mdiag s) (mdiag t) = mdiag (vmul s t).
Proof. ring3. Qed.

Lemma mtrans_mdiag (s : vec3) : mtrans (mdiag s) = mdiag s.
Proof. ring3. Qed.

Lemma mdiag_cancel (k : R) (m n : mat3) :
  k <> 0 -> mmul (mdiag (V3 k k k)) m = mmul (mdiag (V3 k k k)) n -> m = n.
Proof.
  intros Hk H.
  destruct m as [[a b c] [d e f] [g h i]], n as [[a' b' c'] [d' e' f'] [g' h' i']].
  unfold mmul, mdiag, mcol0, mcol1, mcol2, dot in H; cbn [vx vy vz row0 row1 row2] in H.
  injection H as H1 H2 H3 H4 H5 H6 H7 H8 H9.
  repeat (apply mat3_eq || apply vec3_eq);
    apply (Rmult_eq_reg_l k); try exact Hk; lra.
Qed.

(** The singular values of a multiple [k Q] of an orthogonal matrix are all
    [k], and the product of the two orthogonal factors is [Q] itself. *)
Lemma svd_of_scaled_orthogonal (k : R) (Q u vh : mat3) (s : vec3) :
  0 < k -> orthogonal Q ->
  svd_spec (mmul (mdiag (V3 k k k)) Q) (u, s, vh) ->
  mmul u vh = Q.
Proof.
  intros Hk [HQ _] ([Hu _] & [Hv1 Hv2] & H1 & H2 & H3 & HH).
  set (Dk := mdiag (V3 k k k)) in *.
  assert (Hleft : mmul (mtrans (mmul Dk Q)) (mmul Dk Q) = mdiag (V3 (k * k) (k * k) (k * k))).
  { rewrite mtrans_mmul, mmul_assoc, <- (mmul_assoc (mtrans Dk) Dk Q).
    unfold Dk; rewrite mtrans_mdiag, mdiag_mmul; unfold vmul; cbn [vx vy vz].
    rewrite mdiag_central, <- mmul_assoc, HQ, mmul_eye_l; reflexivity. }
  assert (Hright : mmul (mtrans (mmul (mmul u (mdiag s)) vh)) (mmul (mmul u (mdiag s)) vh)
                   = mmul (mtrans vh) (mmul (mdiag (vmul s s)) vh)).
  { rewrite !mtrans_mmul, mtrans_mdiag, !mmul_assoc.
    rewrite <- (mmul_assoc (mtrans u) u), Hu, mmul_eye_l.
    rewrite <- (mmul_assoc (mdiag s) (mdiag s)), mdiag_mmul; reflexivity. }
  rewrite <- HH, Hleft in Hright.
  assert (Hsq : mdiag (vmul s s) = mdiag (V3 (k * k) (k * k) (k * k))).
  { transitivity (mmul vh (mmul (mmul (mtrans vh) (mmul (mdiag (vmul s s)) vh)) (mtrans vh))).
    - rewrite !mmul_assoc, Hv2, mmul_eye_r.
      rewrite <- mmul_assoc, Hv2, mmul_eye_l; reflexivity.
    - rewrite <- Hright, mdiag_central, <- mmul_assoc, Hv2, mmul_eye_l; reflexivity. }
  assert (Hs : s = V3 k k k).
  { destruct s as [sx sy sz]; cbn [vx vy vz] in *.
    unfold mdiag, vmul in Hsq; cbn [vx vy vz] in Hsq.
    injection Hsq as Ex Ey Ez.
    apply vec3_eq; nra. }
  rewrite Hs in HH; fold Dk in HH.
  apply (mdiag_cancel k); [lra |]; fold Dk.
  rewrite HH, mmul_assoc; unfold Dk; rewrite mdiag_central, mmul_assoc.
  f_equal; symmetry; apply mdiag_central.
Qed.

Lemma orthogonal_mtrans (Q : mat3) : orthogonal Q -> orthogonal (mtrans Q).
Proof.
  intros [H1 H2]; split; rewrite mtrans_involutive; assumption.
Qed.

Lemma cross_covariance_frame (c : R) (F Q : mat3) :
  orthogonal F ->
  cross_covariance (frame_rows F) (similar_image c Q (frame_rows F))
  = mmul (mdiag (V3 c c c)) (mtrans Q).
Proof.
  intros [HF _].
  transitivity (mmul (mdiag (V3 c c c)) (mmul (mmul (mtrans F) F) (mtrans Q))).
  - unfold cross_covariance, similar_image, frame_rows; simpl; ring3.
  - rewrite HF, mmul_eye_l; reflexivity.
Qed.

Lemma frame_axis_norms (G : mat3) :
  orthogonal G ->
  axis_norm vx (frame_rows G) = 1 /\ axis_norm vy (frame_rows G) = 1
  /\ axis_norm vz (frame_rows G) = 1.
Proof.
  intros [HG _].
  destruct G as [[a b c] [d e f] [g h i]].
  unfold mmul, mtrans, eye3, mcol0, mcol1, mcol2, dot in HG;
    cbn [vx vy vz row0 row1 row2] in HG.
  injection HG as H1 H2 H3 H4 H5 H6 H7 H8 H9.
  unfold axis_norm, frame_rows; cbn [map sumR fold_right vx vy vz row0 row1 row2].
  repeat split; apply sqrt_value; lra.
Qed.

Lemma similar_image_frame (c : R) (F Q : mat3) :
  similar_image c Q (frame_rows F) = map (vscale c) (frame_rows (mmul F (mtrans Q))).
Proof.
  unfold similar_image, frame_rows; cbn [map]; crush3.
  repeat (apply f_equal2; [apply vec3_eq; ring |]); reflexivity.
Qed.

(** On three orthonormal descriptors [fx] and their image [fy] under an
    orthogonal [Q] (every vector [v] of [fx] goes to [c Q v], with [c > 0]),
    the solver returns the transpose [Q^T], not [Q]: the returned [R] is the
    matrix with [fy = c fx R] for row vectors.  The scale is [c] on all three
    coordinates.  This holds whichever valid decomposition the solver is
    given. *)
Theorem alignment_recovers_frame_motion
    (svd : mat3 -> mat3 * vec3 * mat3) (F Q : mat3) (c : R) :
  orthogonal F -> orthogonal Q -> 0 < c ->
  svd_spec (cross_covariance (frame_rows F) (similar_image c Q (frame_rows F)))
           (svd (cross_covariance (frame_rows F) (similar_image c Q (frame_rows F)))) ->
  Alignment_forward1 svd (frame_rows F) (similar_image c Q (frame_rows F))
  = Some (mtrans Q, [Some c; Some c; Some c]).
Proof.
  intros HF HQ Hc Hs.
  pose proof (orthogonal_mtrans Q HQ) as HQt.
  rewrite Alignment_forward1_eq by reflexivity.
  f_equal; f_equal.
  - unfold alignment_rotation.
    rewrite (cross_covariance_frame c F Q HF) in *.
    destruct (svd (mmul (mdiag (V3 c c c)) (mtrans Q))) as [[u s] vh].
    exact (svd_of_scaled_orthogonal c (mtrans Q) u vh s Hc HQt Hs).
  - rewrite Alignment_scale_axes, similar_image_frame.
    destruct (frame_axis_norms F HF) as (Fx & Fy & Fz).
    destruct (frame_axis_norms (mmul F (mtrans Q)) (orthogonal_mmul F (mtrans Q) HF HQt))
      as (Gx & Gy & Gz).
    unfold axis_norm at 1 3 5; rewrite !map_map; cbn [vscale vx vy vz].
    rewrite (axis_norm_scale c vx), (axis_norm_scale c vy), (axis_norm_scale c vz).
    rewrite Fx, Fy, Fz, Gx, Gy, Gz, (Rabs_pos_eq c) by lra.
    rewrite !(fdiv_value (c * 1) 1 c) by lra; reflexivity.
Qed.

Lemma svd_of_double_turn_spec (H : mat3) :
  H = mmul (mdiag (V3 2 2 2)) (mtrans quarter_turn_z) -> svd_spec H (svd_of_double_turn H).
Proof.
  intros ->; unfold svd_of_double_turn, svd_spec.
  split; [apply orthogonal_mtrans, orthogonal_quarter_turn_z
         | split; [apply orthogonal_eye |]].
  cbn [vx vy vz]; repeat split; try lra.
  unfold quarter_turn_z; ring3.
Qed.

(** The unit frame, turned by a quarter turn and doubled: the solver answers
    the transposed quarter turn, which is not the quarter turn. *)
Lemma alignment_recovers_frame_motion_witness :
  Alignment_forward1 svd_of_double_turn (frame_rows eye3)
                     (similar_image 2 quarter_turn_z (frame_rows eye3))
  = Some (mtrans quarter_turn_z, [Some 2; Some 2; Some 2])
  /\ similar_image 2 quarter_turn_z (frame_rows eye3)
     = map (fun v => vscale 2 (mulMV quarter_turn_z v)) [e1; e2; e3].
Proof.
  split; [| reflexivity].
  apply (alignment_recovers_frame_motion svd_of_double_turn eye3 quarter_turn_z 2).
  - exact orthogonal_eye.
  - exact orthogonal_quarter_turn_z.
  - lra.
  - apply svd_of_double_turn_spec, cross_covariance_frame, orthogonal_eye.
Defined.

Lemma unit_frame_axis_norms :
  axis_norm vx unit_frame = 1 /\ axis_norm vy unit_frame = 1 /\ axis_norm vz unit_frame = 1.
Proof. exact (frame_axis_norms eye3 orthogonal_eye). Qed.

(** The unit frame stretched by 2, -3 and 1 along the three coordinates: the
    returned scale is (2, 3, 1). *)
Lemma alignment_scale_recovers_stretch_witness :
  Alignment_scale unit_frame (map (vmul (V3 2 (-3) 1)) unit_frame)
  = [Some (Rabs 2); Some (Rabs (-3)); Some (Rabs 1)].
Proof.
  destruct unit_frame_axis_norms as (Hx & Hy & Hz).
  apply (alignment_scale_recovers_stretch (V3 2 (-3) 1) unit_frame).
  - rewrite Hx; lra.
  - rewrite Hy; lra.
  - rewrite Hz; lra.
Defined.

(** ** HEGN_Loss: what the loss reads of the scale matrices *)

(** The loss reads the scale matrices on their diagonals only: entries off
    the diagonal of [S] or [S_gt] never change any of the three returned
    values. *)
Theorem loss_ignores_off_diagonal_scale
    (x_aligned y : list cloud) (batch batch' : list registration) :
  Forall2 same_up_to_shear batch batch' ->
  HEGN_Loss_forward x_aligned y batch = HEGN_Loss_forward x_aligned y batch'.
Proof.
  intros HF; unfold HEGN_Loss_forward.
  assert (E : map L_reg1 batch = map L_reg1 batch').
  { induction HF as [|r r' b b' (H1 & H2 & H3 & H4 & H5 & H6) HF IH]; simpl;
      [reflexivity|].
    rewrite IH; f_equal.
    unfold L_reg1; rewrite H1, H2, H3, H4, H5, H6; reflexivity. }
  rewrite E; reflexivity.
Qed.

(** The exact prediction and the same prediction with sheared scales. *)
Lemma loss_ignores_off_diagonal_scale_witness :
  HEGN_Loss_forward two_points two_points [exact_registration]
  = HEGN_Loss_forward two_points two_points [sheared_registration].
Proof.
  apply (loss_ignores_off_diagonal_scale two_points two_points
           [exact_registration] [sheared_registration]).
  constructor; [| constructor].
  unfold same_up_to_shear, exact_registration, sheared_registration, eye3, diagonal;
    cbn [R_pred R_gt S_pred S_gt t_pred t_gt row0 row1 row2 vx vy vz].
  repeat split.
Defined.

(** ** InvariantMapping: the selection commutes with a global rotation *)

Lemma gather_rotate (m : mat3) (f : feat) (idx : list nat) :
  gather (rotate_feat m f) idx = rotate_feat m (gather f idx).
Proof.
  unfold gather, rotate_feat; rewrite !map_map.
  apply map_ext; intros ch; rewrite map_map.
  apply map_ext; intros i.
  rewrite <- (mulMV_vzero m) at 1; apply map_nth.
Qed.

Lemma same_extents_rotate (m m' : mat3) (fx fy : feat) :
  same_extents (rotate_feat m fx) (rotate_feat m' fy) = same_extents fx fy.
Proof.
  unfold same_extents; rewrite !nsamples_rotate.
  unfold rotate_feat; rewrite !length_map; reflexivity.
Qed.

Lemma InvariantMapping_forward1_rotate (Rm : mat3) (fx fy : feat) (topk : nat) :
  orthogonal Rm ->
  InvariantMapping_forward1 (rotate_feat Rm fx) (rotate_feat Rm fy) topk
  = match InvariantMapping_forward1 fx fy topk with
    | Some (gx, gy) => Some (rotate_feat Rm gx, rotate_feat Rm gy)
    | None => None
    end.
Proof.
  intros H; unfold InvariantMapping_forward1.
  rewrite same_extents_rotate.
  destruct (same_extents fx fy); [| reflexivity].
  destruct topk as [|t]; [reflexivity|].
  unfold InvariantMapping_scores.
  rewrite !invariant_descriptor_rotate by exact H.
  destruct (topk_indices _ _) as [idx|]; [| reflexivity].
  rewrite !gather_rotate; reflexivity.
Qed.

(** On a batch of feature pairs of the same extents and a divisor
    [topk >= 1], turning both tensors of every batch element by the same
    orthogonal matrix makes the selector pick the same sample indices, so
    that it returns the turned outputs. *)
Theorem invariant_mapping_equivariant (Rm : mat3) (fx fy : list feat) (topk : nat) :
  orthogonal Rm ->
  Forall2 (fun x y => same_extents x y = true) fx fy ->
  topk <> 0%nat ->
  exists idx : list (list nat),
    InvariantMapping_forward fx fy topk
    = Some (map2 gather fx idx, map2 gather fy idx)
    /\ InvariantMapping_forward (map (rotate_feat Rm) fx) (map (rotate_feat Rm) fy) topk
       = Some (map (rotate_feat Rm) (map2 gather fx idx),
               map (rotate_feat Rm) (map2 gather fy idx)).
Proof.
  intros H HF Htopk; unfold InvariantMapping_forward.
  assert (Hlen : length fx = length fy) by (induction HF; simpl; congruence).
  rewrite !length_map, Hlen, Nat.eqb_refl; clear Hlen.
  assert (Hs : exists idx rs,
             sequence (map2 (fun x y => InvariantMapping_forward1 x y topk) fx fy) = Some rs
             /\ sequence (map2 (fun x y => InvariantMapping_forward1 x y topk)
                                (map (rotate_feat Rm) fx) (map (rotate_feat Rm) fy))
                = Some (map (fun p => (rotate_feat Rm (fst p), rotate_feat Rm (snd p))) rs)
             /\ map fst rs = map2 gather fx idx
             /\ map snd rs = map2 gather fy idx).
  { induction HF as [|x y fx fy Hxy HF IH].
    - exists [], []; repeat split.
    - destruct IH as (idx & rs & Hseq & Hrot & Hfst & Hsnd).
      destruct (InvariantMapping_forward1_selection x y topk Hxy Htopk) as (i & Hi & _).
      exists (i :: idx), ((gather x i, gather y i) :: rs).
      cbn [map map2 sequence fst snd].
      rewrite (InvariantMapping_forward1_rotate Rm x y topk H), Hi, Hseq, Hrot, Hfst, Hsnd.
      repeat split. }
  destruct Hs as (idx & rs & Hseq & Hrot & Hfst & Hsnd).
  exists idx; rewrite Hseq, Hrot, Hfst, Hsnd; split; [reflexivity |].
  rewrite !map_map; cbn [fst snd].
  rewrite <- (map_map fst (rotate_feat Rm)), <- (map_map snd (rotate_feat Rm)), Hfst, Hsnd.
  reflexivity.
Qed.

(** The small feature pair under the quarter turn, half of the points kept. *)
Lemma invariant_mapping_equivariant_witness :
  exists idx : list (list nat),
    InvariantMapping_forward [small_fx] [small_fy] 2
    = Some (map2 gather [small_fx] idx, map2 gather [small_fy] idx)
    /\ InvariantMapping_forward (map (rotate_feat quarter_turn_z) [small_fx])
                                (map (rotate_feat quarter_turn_z) [small_fy]) 2
       = Some (map (rotate_feat quarter_turn_z) (map2 gather [small_fx] idx),
               map (rotate_feat quarter_turn_z) (map2 gather [small_fy] idx)).
Proof.
  apply (invariant_mapping_equivariant quarter_turn_z [small_fx] [small_fy] 2).
  - exact orthogonal_quarter_turn_z.
  - constructor; [reflexivity | constructor].
  - discriminate.
Defined.

(** ** CrossContext: the channel normalisation *)

Lemma mulMV_vscale (m : mat3) (a : R) (v : vec3) :
  mulMV m (vscale a v) = vscale a (mulMV m v).
Proof. ring3. Qed.

Lemma F_normalize3_rotate (m : mat3) (v : vec3) :
  orthogonal m -> F_normalize3 (mulMV m v) = mulMV m (F_normalize3 v).
Proof.
  intros H; unfold F_normalize3.
  rewrite vnorm_orthogonal by exact H; symmetry; apply mulMV_vdivs.
Qed.

Lemma chnorm_column_rotate (m : mat3) (col : list vec3) :
  orthogonal m ->
  chnorm_column (map (mulMV m) col) = map (mulMV m) (chnorm_column col).
Proof.
  intros H; unfold chnorm_column; cbv zeta.
  rewrite (map_map (mulMV m) vnorm).
  rewrite (map_ext (fun v => vnorm (mulMV m v)) vnorm (fun v => vnorm_orthogonal m v H)).
  rewrite !map_map.
  apply map_ext; intros v.
  rewrite vnorm_orthogonal, F_normalize3_rotate, mulMV_vscale by exact H; reflexivity.
Qed.

Lemma columns_rotate (m : mat3) (N : nat) (f : feat) :
  columns N (rotate_feat m f) = rotate_feat m (columns N f).
Proof.
  unfold columns, rotate_feat at 2; rewrite map_map.
  apply map_ext; intros n; apply at_sample_rotate.
Qed.

Lemma channel_normalize_rotate (m : mat3) (x : feat) :
  orthogonal m ->
  channel_equi_vec_normalize (rotate_feat m x)
  = rotate_feat m (channel_equi_vec_normalize x).
Proof.
  intros H; unfold channel_equi_vec_normalize.
  rewrite nsamples_rotate, columns_rotate.
  replace (length (rotate_feat m x)) with (length x)
    by (unfold rotate_feat; rewrite length_map; reflexivity).
  rewrite <- (columns_rotate m (length x) (map chnorm_column (columns (nsamples x) x))).
  f_equal.
  unfold rotate_feat; rewrite !map_map.
  apply map_ext; intros col; apply chnorm_column_rotate, H.
Qed.


Lemma chunks_map {A B : Type} (f : A -> B) (n m : nat) (l : list A) :
  chunks n m (map f l) = map (map f) (chunks n m l).
Proof.
  revert l; induction n as [|n IH]; intros l; simpl; [reflexivity|].
  rewrite firstn_map, skipn_map, IH; reflexivity.
Qed.

Lemma nsamples_map {A B : Type} (f : list A -> list B) (y : list (list A)) :
  (forall l, length (f l) = length l) -> nsamples (map f y) = nsamples y.
Proof. intros H; destruct y as [|ch y]; simpl; [reflexivity | apply H]. Qed.

Lemma same_extents_map {A B A' B' : Type} (f : A -> A') (g : B -> B')
    (a : list (list A)) (b : list (list B)) :
  same_extents (map (map f) a) (map (map g) b) = same_extents a b.
Proof.
  unfold same_extents.
  rewrite !length_map, !(nsamples_map (map _)) by (intros; apply length_map).
  reflexivity.
Qed.

Lemma channel_normalize5_rotate (m : mat3) (y : gfeat) :
  orthogonal m ->
  channel_equi_vec_normalize5 (rotate_gfeat m y)
  = rotate_gfeat m (channel_equi_vec_normalize5 y).
Proof.
  intros H; unfold channel_equi_vec_normalize5, rotate_gfeat; cbv zeta.
  rewrite (nsamples_map (map (map (mulMV m)))) by (intros; apply length_map).
  assert (HK : nsamples (hd [] (map (map (map (mulMV m))) y)) = nsamples (hd [] y)).
  { destruct y as [|ch y]; [reflexivity|]; cbn [map hd].
    apply nsamples_map; intros; apply length_map. }
  rewrite HK.
  assert (Hflat : map (@concat vec3) (map (map (map (mulMV m))) y)
                  = rotate_feat m (map (@concat vec3) y)).
  { unfold rotate_feat; rewrite !map_map.
    apply map_ext; intros ch; symmetry; apply concat_map. }
  rewrite Hflat, (channel_normalize_rotate m _ H).
  unfold rotate_feat; rewrite !map_map.
  apply map_ext; intros ch; apply chunks_map.
Qed.

(** The channel normalisation commutes with every orthogonal matrix applied
    to all vectors of the tensor, for the point features ([B, C, 3, N]) and
    for the graph features ([B, C, 3, N, K]) alike. *)
Theorem channel_normalize_equivariant (Rm : mat3) (x : feat) (g : gfeat) :
  orthogonal Rm ->
  channel_equi_vec_normalize (rotate_feat Rm x)
  = rotate_feat Rm (channel_equi_vec_normalize x)
  /\ channel_equi_vec_normalize5 (rotate_gfeat Rm g)
     = rotate_gfeat Rm (channel_equi_vec_normalize5 g).
Proof.
  intros H; split;
    [apply channel_normalize_rotate, H | apply channel_normalize5_rotate, H].
Qed.

Lemma channel_normalize_equivariant_witness :
  channel_equi_vec_normalize (rotate_feat quarter_turn_z small_fx)
  = rotate_feat quarter_turn_z (channel_equi_vec_normalize small_fx)
  /\ channel_equi_vec_normalize5 (rotate_gfeat quarter_turn_z (self_graph small_fy 2))
     = rotate_gfeat quarter_turn_z (channel_equi_vec_normalize5 (self_graph small_fy 2)).
Proof.
  apply (channel_normalize_equivariant quarter_turn_z small_fx (self_graph small_fy 2)).
  exact orthogonal_quarter_turn_z.
Defined.

(** ** CrossContext: equivariance of the whole module *)

Lemma attention_logits_rotate (m : mat3) (Qx : feat) (Ky : gfeat) :
  orthogonal m ->
  attention_logits (rotate_feat m Qx) (rotate_gfeat m Ky) = attention_logits Qx Ky.
Proof.
  intros H; unfold attention_logits, rotate_feat, rotate_gfeat.
  revert Qx; induction Ky as [|kc Ky IH]; intros [|qc Qx]; cbn [map map2]; try reflexivity.
  rewrite IH; f_equal.
  clear IH; revert qc; induction kc as [|kn kc IH]; intros [|q qc]; cbn [map map2];
    try reflexivity.
  rewrite IH; f_equal.
  rewrite map_map; apply map_ext; intros kv; apply dot_orthogonal, H.
Qed.

Lemma weighted_sum_rotate (m : mat3) (w : list R) (vs : list vec3) :
  vsum (map2 vscale w (map (mulMV m) vs)) = mulMV m (vsum (map2 vscale w vs)).
Proof.
  revert vs; induction w as [|a w IH]; intros [|v vs]; cbn [map map2 vsum fold_right];
    try (symmetry; apply mulMV_vzero).
  fold (vsum (map2 vscale w (map (mulMV m) vs))); fold (vsum (map2 vscale w vs)).
  rewrite IH, mulMV_vadd, mulMV_vscale; reflexivity.
Qed.

Lemma attend_rotate (m : mat3) (x : feat) (atten : list (list (list R))) (Vy : gfeat) :
  attend (rotate_feat m x) atten (rotate_gfeat m Vy) = rotate_feat m (attend x atten Vy).
Proof.
  unfold attend, rotate_feat, rotate_gfeat.
  revert atten Vy; induction x as [|xc x IH]; intros [|ac atten] [|vc Vy];
    cbn [map map2]; try reflexivity.
  rewrite IH; f_equal.
  clear IH; revert ac vc; induction xc as [|xv xc IH]; intros [|a ac] [|v vc];
    cbn [map map2 combine]; try reflexivity.
  rewrite IH; f_equal.
  cbn [fst snd]; rewrite weighted_sum_rotate, mulMV_vadd; reflexivity.
Qed.

Lemma CrossContext_forward_rotate
    (Rm : mat3) (head_c k : nat) (vn_mlp_q : feat -> feat) (vn_mlp_k vn_mlp_v : gfeat -> gfeat)
    (get_graph_feature : feat -> nat -> gfeat) (x y : feat) :
  orthogonal Rm ->
  equivariant_layer Rm vn_mlp_q ->
  equivariant_glayer Rm vn_mlp_k ->
  equivariant_glayer Rm vn_mlp_v ->
  equivariant_graph Rm get_graph_feature ->
  CrossContext_forward head_c k vn_mlp_q vn_mlp_k vn_mlp_v get_graph_feature
                       (rotate_feat Rm x) (rotate_feat Rm y)
  = match CrossContext_forward head_c k vn_mlp_q vn_mlp_k vn_mlp_v get_graph_feature x y with
    | Some out => Some (rotate_feat Rm out)
    | None => None
    end.
Proof.
  intros H Hq Hk Hv Hg; unfold CrossContext_forward; cbv zeta.
  rewrite !Hq, !Hg, !Hk, !Hv.
  rewrite !(channel_normalize_rotate Rm _ H), !(channel_normalize5_rotate Rm _ H).
  set (Qx := channel_equi_vec_normalize (vn_mlp_q x)).
  set (Ky := channel_equi_vec_normalize5 (vn_mlp_k (get_graph_feature y k))).
  set (Vy := vn_mlp_v (get_graph_feature y k)).
  unfold rotate_gfeat, rotate_feat at 1 2 3.
  rewrite !same_extents_map.
  fold (rotate_feat Rm Qx) (rotate_gfeat Rm Ky) (rotate_gfeat Rm Vy) (rotate_feat Rm x).
  destruct (same_extents Ky Qx && same_extents Ky Vy && same_extents x Vy); [| reflexivity].
  rewrite (attention_logits_rotate Rm Qx Ky H).
  destruct (attention_weights head_c (attention_logits Qx Ky)) as [atten|]; [| reflexivity].
  rewrite attend_rotate; reflexivity.
Qed.

Lemma identity_layer_equivariant (Rm : mat3) : equivariant_layer Rm identity_layer.
Proof. intros f; reflexivity. Qed.

Lemma identity_glayer_equivariant (Rm : mat3) : equivariant_glayer Rm identity_layer.
Proof. intros g; reflexivity. Qed.

Lemma self_graph_equivariant (Rm : mat3) : equivariant_graph Rm self_graph.
Proof.
  intros f k; unfold self_graph, rotate_feat, rotate_gfeat; rewrite !map_map.
  apply map_ext; intros ch; rewrite !map_map.
  apply map_ext; intros v; symmetry; apply map_repeat.
Qed.

(** The module is equivariant as soon as its learned layers and the graph
    construction are.  Whenever it returns on [x] and [y] (the operands of
    its elementwise operations then have equal extents, none is broadcast),
    it returns on the inputs turned by an orthogonal matrix, and what it
    returns is the turned output: the attention weights are unchanged. *)
Theorem CrossContext_equivariant
    (Rm : mat3) (head_c k : nat) (vn_mlp_q : feat -> feat) (vn_mlp_k vn_mlp_v : gfeat -> gfeat)
    (get_graph_feature : feat -> nat -> gfeat) (x y out : feat) :
  orthogonal Rm ->
  equivariant_layer Rm vn_mlp_q ->
  equivariant_glayer Rm vn_mlp_k ->
  equivariant_glayer Rm vn_mlp_v ->
  equivariant_graph Rm get_graph_feature ->
  CrossContext_forward head_c k vn_mlp_q vn_mlp_k vn_mlp_v get_graph_feature x y = Some out ->
  CrossContext_forward head_c k vn_mlp_q vn_mlp_k vn_mlp_v get_graph_feature
                       (rotate_feat Rm x) (rotate_feat Rm y)
  = Some (rotate_feat Rm out).
Proof.
  intros H Hq Hk Hv Hg Hout.
  rewrite (CrossContext_forward_rotate Rm head_c k _ _ _ _ x y H Hq Hk Hv Hg), Hout.
  reflexivity.
Qed.

(** The module returns on the small feature pair, with identity layers and
    the graph of self-neighbours. *)
Lemma CrossContext_example_returns :
  exists out,
    CrossContext_forward 2 2 identity_layer identity_layer identity_layer self_graph
                         small_fx small_fy = Some out.
Proof.
  eexists.
  apply (CrossContext_forward_per_channel 2 2 identity_layer identity_layer identity_layer
           self_graph small_fx small_fy).
  - reflexivity.
  - discriminate.
  - reflexivity.
Qed.

(** The small feature pair under the quarter turn. *)
Lemma CrossContext_equivariant_witness :
  exists out,
    CrossContext_forward 2 2 identity_layer identity_layer identity_layer self_graph
                         small_fx small_fy = Some out
    /\ CrossContext_forward 2 2 identity_layer identity_layer identity_layer self_graph
                            (rotate_feat quarter_turn_z small_fx)
                            (rotate_feat quarter_turn_z small_fy)
       = Some (rotate_feat quarter_turn_z out).
Proof.
  destruct CrossContext_example_returns as [out Hout].
  exists out; split; [exact Hout |].
  apply (CrossContext_equivariant quarter_turn_z 2 2 identity_layer identity_layer
           identity_layer self_graph small_fx small_fy out).
  - exact orthogonal_quarter_turn_z.
  - apply identity_layer_equivariant.
  - apply identity_glayer_equivariant.
  - apply identity_glayer_equivariant.
  - apply self_graph_equivariant.
  - exact Hout.
Defined.

(** ** GlobalContext and EquivariantFeatureExtraction *)

Lemma GlobalContext_forward_rotate (m : mat3) (vn_mlp : feat -> feat) (fx : feat) :
  equivariant_layer m vn_mlp ->
  GlobalContext_forward vn_mlp (rotate_feat m fx)
  = rotate_feat m (GlobalContext_forward vn_mlp fx).
Proof.
  intros Hl; unfold GlobalContext_forward; cbv zeta.
  rewrite <- Hl, nsamples_rotate; f_equal.
  unfold rotate_feat; rewrite map_app, !map_map; f_equal.
  apply map_ext; intros ch.
  rewrite vmean_rotate, map_repeat; reflexivity.
Qed.

(** The global context commutes with every matrix its layer commutes with:
    the pooled mean is linear, so no orthogonality is needed. *)
Theorem GlobalContext_equivariant (Rm : mat3) (vn_mlp : feat -> feat) (fx : feat) :
  equivariant_layer Rm vn_mlp ->
  GlobalContext_forward vn_mlp (rotate_feat Rm fx)
  = rotate_feat Rm (GlobalContext_forward vn_mlp fx).
Proof. apply GlobalContext_forward_rotate. Qed.

Lemma GlobalContext_equivariant_witness :
  GlobalContext_forward identity_layer (rotate_feat (mdiag (V3 1 2 3)) small_fx)
  = rotate_feat (mdiag (V3 1 2 3)) (GlobalContext_forward identity_layer small_fx).
Proof.
  apply (GlobalContext_equivariant (mdiag (V3 1 2 3)) identity_layer small_fx).
  apply identity_layer_equivariant.
Defined.

Lemma widen_equivariant (Rm : mat3) : equivariant_layer Rm widen.
Proof.
  intros f; unfold widen, rotate_feat.
  rewrite concat_map, map_repeat; reflexivity.
Qed.

(** The feature extraction of a block is equivariant as soon as its layers
    and the graph construction are.  Whenever it returns on [x] and [y] (the
    operands of the elementwise operations of both cross contexts then have
    equal extents), it returns on the inputs turned by an orthogonal matrix,
    and both outputs are the turned outputs. *)
Theorem feature_extraction_equivariant (Rm : mat3) (L : extraction_layers)
    (get_graph_feature : feat -> nat -> gfeat) (k : nat) (x y fx fy : feat) :
  orthogonal Rm ->
  equivariant_layer Rm (local_context_feat L) ->
  equivariant_layer Rm (cross_q L) ->
  equivariant_glayer Rm (cross_k L) ->
  equivariant_glayer Rm (cross_v L) ->
  equivariant_layer Rm (global_mlp L) ->
  equivariant_graph Rm get_graph_feature ->
  EquivariantFeatureExtraction_forward L get_graph_feature k x y = Some (fx, fy) ->
  EquivariantFeatureExtraction_forward L get_graph_feature k
    (rotate_feat Rm x) (rotate_feat Rm y)
  = Some (rotate_feat Rm fx, rotate_feat Rm fy).
Proof.
  intros H Hl Hq Hk Hv Hm Hg; unfold EquivariantFeatureExtraction_forward; cbv zeta.
  rewrite !Hl.
  rewrite (CrossContext_forward_rotate Rm 16 k _ _ _ _ _ _ H Hq Hk Hv Hg).
  destruct (CrossContext_forward 16 k (cross_q L) (cross_k L) (cross_v L) get_graph_feature
              (local_context_feat L x) (local_context_feat L y)) as [gx|]; [| discriminate].
  rewrite (CrossContext_forward_rotate Rm 16 k _ _ _ _ _ _ H Hq Hk Hv Hg).
  destruct (CrossContext_forward 16 k (cross_q L) (cross_k L) (cross_v L) get_graph_feature
              (local_context_feat L y) gx) as [gy|]; [| discriminate].
  intros Hout; injection Hout as <- <-.
  rewrite !(GlobalContext_forward_rotate Rm _ _ Hm); reflexivity.
Qed.

(** The extraction returns on the small feature pair, with the example
    layers (32 channels after the local context) and the graph of
    self-neighbours. *)
Lemma feature_extraction_example_returns :
  exists fx fy,
    EquivariantFeatureExtraction_forward example_layers self_graph 2 small_fx small_fy
    = Some (fx, fy).
Proof.
  unfold EquivariantFeatureExtraction_forward; cbv zeta.
  cbn [example_layers local_context_feat cross_q cross_k cross_v global_mlp].
  rewrite (CrossContext_forward_per_channel 16 2 identity_layer identity_layer identity_layer
             self_graph (widen small_fx) (widen small_fy));
    [| reflexivity | discriminate | reflexivity].
  match goal with
  | |- context [CrossContext_forward 16 2 _ _ _ _ ?a ?b] =>
      rewrite (CrossContext_forward_per_channel 16 2 identity_layer identity_layer
                 identity_layer self_graph a b);
        [| reflexivity | discriminate | reflexivity]
  end.
  do 2 eexists; reflexivity.
Qed.

Lemma feature_extraction_equivariant_witness :
  exists fx fy,
    EquivariantFeatureExtraction_forward example_layers self_graph 2 small_fx small_fy
    = Some (fx, fy)
    /\ EquivariantFeatureExtraction_forward example_layers self_graph 2
         (rotate_feat quarter_turn_z small_fx) (rotate_feat quarter_turn_z small_fy)
       = Some (rotate_feat quarter_turn_z fx, rotate_feat quarter_turn_z fy).
Proof.
  destruct feature_extraction_example_returns as (fx & fy & Hout).
  exists fx, fy; split; [exact Hout |].
  apply (feature_extraction_equivariant quarter_turn_z example_layers self_graph 2
           small_fx small_fy fx fy).
  - exact orthogonal_quarter_turn_z.
  - apply widen_equivariant.
  - apply identity_layer_equivariant.
  - apply identity_glayer_equivariant.
  - apply identity_glayer_equivariant.
  - apply identity_layer_equivariant.
  - apply self_graph_equivariant.
  - exact Hout.
Defined.

(** ** Configurations that the construction and the forward pass accept *)

Section ShapeConfiguration.

Import Shape.
Local Open Scope nat_scope.

Ltac inv_bind H :=
  match type of H with
  | bind ?o _ = Some _ =>
      let E := fresh "E" in
      destruct o eqn:E; [cbn [bind] in H | discriminate H]
  end.

Ltac inv_binds :=
  repeat match goal with
         | H : bind ?o _ = Some _ |- _ =>
             let E := fresh "E" in
             destruct o eqn:E; [cbn [bind] in H | discriminate H]
         | H : Some _ = Some _ |- _ => inversion H; subst; clear H
         end.

Lemma shape_nth_error_short {A : Type} (l : list A) (i : nat) :
  length l <= i -> nth_error l i = None.
Proof. apply nth_error_None. Qed.

Lemma shape_block_entry_short (vin vout knn : list nat) (i : nat) :
  length vin <= i \/ length vout <= i \/ length knn <= i ->
  (a <- nth_error vin i ;; b <- nth_error vout i ;; c <- nth_error knn i ;; Some (EFE a b c))
  = None.
Proof.
  intros [H | [H | H]]; rewrite (shape_nth_error_short _ _ H);
    repeat (match goal with |- context [nth_error ?l ?j] => destruct (nth_error l j) end;
            cbn [bind]); reflexivity.
Qed.

(** The constructor raises as soon as one of [vngcnn_in], [vngcnn_out] and
    [n_knn] has fewer than four entries: it indexes each of them at 0, 1, 2
    and 3, whatever [num_blocks] says. *)
Theorem init_raises_when_short (args : Args) :
  (length (vngcnn_in args) < 4 \/ length (vngcnn_out args) < 4
   \/ length (n_knn args) < 4) ->
  HEGN_init args = None.
Proof.
  intros H; unfold HEGN_init; cbv zeta.
  assert (H3 : length (vngcnn_in args) <= 3 \/ length (vngcnn_out args) <= 3
               \/ length (n_knn args) <= 3) by lia.
  destruct (nth_error (vngcnn_in args) 0) as [a0|]; [| reflexivity].
  destruct (nth_error (vngcnn_out args) 0) as [b0|]; [| reflexivity].
  destruct (nth_error (n_knn args) 0) as [c0|]; [| reflexivity].
  destruct (nth_error (vngcnn_in args) 1) as [a1|]; [| reflexivity].
  destruct (nth_error (vngcnn_out args) 1) as [b1|]; [| reflexivity].
  destruct (nth_error (n_knn args) 1) as [c1|]; [| reflexivity].
  destruct (nth_error (vngcnn_in args) 2) as [a2|]; [| reflexivity].
  destruct (nth_error (vngcnn_out args) 2) as [b2|]; [| reflexivity].
  destruct (nth_error (n_knn args) 2) as [c2|]; [| reflexivity].
  cbn [bind].
  rewrite (shape_block_entry_short _ _ _ 3 H3); reflexivity.
Qed.

(** Three blocks configured, [num_blocks] set to 3. *)
Lemma init_raises_when_short_witness : HEGN_init three_block_args = None.
Proof.
  apply (init_raises_when_short three_block_args).
  left; cbn [three_block_args vngcnn_in length]; lia.
Defined.

Lemma shape_VNLinearLeakyReLU_inv (c_in c_out : nat) (s r : shape) :
  VNLinearLeakyReLU c_in c_out s = Some r ->
  exists b rest, s = b :: c_in :: 3 :: rest /\ r = b :: c_out :: 3 :: rest.
Proof.
  unfold VNLinearLeakyReLU.
  destruct s as [|b [|c [|[|[|[|[|d]]]] rest]]]; try discriminate.
  destruct (c =? c_in) eqn:E; [| discriminate].
  apply Nat.eqb_eq in E; subst c.
  intros H; injection H as <-; exists b, rest; split; reflexivity.
Qed.

Lemma shape_VNDGCNN_inv (c_in c_out k : nat) (s r : shape) :
  VNDGCNN c_in c_out k s = Some r ->
  exists b n, s = [b; c_in; 3; n] /\ r = [b; c_out; 3; n].
Proof.
  unfold VNDGCNN.
  destruct s as [|b [|c [|[|[|[|[|d]]]] [|n [|]]]]]; try discriminate.
  destruct ((c =? c_in) && (k <=? n)) eqn:E; [| discriminate].
  apply andb_prop in E; destruct E as [E _]; apply Nat.eqb_eq in E; subst c.
  intros H; injection H as <-; exists b, n; split; reflexivity.
Qed.

Lemma shape_GlobalContext_forward_inv (mlp_in mlp_out : nat) (fx r : shape) :
  GlobalContext_forward mlp_in mlp_out fx = Some r ->
  exists b rest, r = b :: mlp_out :: 3 :: rest.
Proof.
  unfold GlobalContext_forward; intros H; repeat inv_bind H.
  apply shape_VNLinearLeakyReLU_inv in H; destruct H as (b & rest & _ & ->).
  exists b, rest; reflexivity.
Qed.

Lemma shape_EquivariantFeatureExtraction_forward_inv (m : EquivariantFeatureExtraction)
    (x y fx fy : shape) :
  EquivariantFeatureExtraction_forward m x y = Some (fx, fy) ->
  (exists b n, x = [b; efe_in m; 3; n])
  /\ (exists b rest, fx = b :: efe_out m :: 3 :: rest).
Proof.
  unfold EquivariantFeatureExtraction_forward; intros H; repeat inv_bind H.
  injection H as Hfx Hfy.
  match goal with
  | Hx : VNDGCNN _ _ _ x = Some _, Hg : GlobalContext_forward _ _ _ = Some ?g,
    Hfx : ?g = fx |- _ =>
      apply shape_VNDGCNN_inv in Hx; destruct Hx as (b & n & -> & _);
      apply shape_GlobalContext_forward_inv in Hg; destruct Hg as (b' & rest & Hg);
      rewrite Hg in Hfx; symmetry in Hfx
  end.
  split; [exists b, n; reflexivity | exists b', rest; exact Hfx].
Qed.

Lemma shape_expand_index_inv (c : nat) (s r : shape) :
  expand [None; Some c; Some 3; None] s = Some r -> exists a e, r = [a; c; 3; e].
Proof.
  destruct s as [|a [|b [|d [|e [|]]]]]; cbn [expand bind]; try discriminate;
    try (destruct ((b =? c) || (b =? 1)); discriminate).
  - destruct ((b =? c) || (b =? 1)); [| discriminate].
    destruct ((d =? 3) || (d =? 1)); discriminate.
  - destruct ((b =? c) || (b =? 1)); [| discriminate].
    destruct ((d =? 3) || (d =? 1)); [| discriminate].
    cbn [bind]; intros H; injection H as <-; exists a, e; reflexivity.
  - destruct ((b =? c) || (b =? 1)); [| discriminate].
    destruct ((d =? 3) || (d =? 1)); discriminate.
Qed.

Lemma shape_InvariantMapping_forward_inv (fx fy fx' fy' : shape) (t : nat) :
  InvariantMapping_forward fx fy t = Some (fx', fy') ->
  exists b c d n b' m, fx = [b; c; d; n] /\ fx' = [b'; c; 3; m] /\ fy' = fx'.
Proof.
  unfold InvariantMapping_forward; intros H.
  repeat inv_bind H.
  destruct t as [|t']; [discriminate|].
  inv_bind H.
  destruct fx as [|xb [|xc [|xd [|xn [|]]]]]; try discriminate.
  repeat inv_bind H.
  injection H as <- <-.
  match goal with
  | He : expand _ _ = Some ?i, H1 : gather_last _ ?i = Some ?a,
    H2 : gather_last _ ?i = Some ?b |- _ =>
      apply shape_expand_index_inv in He; destruct He as (a0 & e0 & ->);
      apply shape_gather_last_eq in H1, H2; subst a b
  end.
  exists xb, xc, xd, xn, a0, e0; repeat split; reflexivity.
Qed.

(** A block that returns was given [efe_in] channels and returns [efe_out]
    channels on both sides. *)
Lemma shape_block_channels (self : HEGN) (fe : EquivariantFeatureExtraction) (i : nat)
    (fx fy fx' fy' : shape) :
  block self fe i fx fy = Some (fx', fy') ->
  exists b n b' m,
    fx = [b; efe_in fe; 3; n] /\ fx' = [b'; efe_out fe; 3; m] /\ fy' = fx'.
Proof.
  unfold block; intros H.
  inv_bind H; destruct p as [gx gy]; inv_bind H.
  apply shape_InvariantMapping_forward_inv in H.
  destruct H as (xb & xc & xd & xn & b' & m & Hgx & -> & ->).
  apply shape_EquivariantFeatureExtraction_forward_inv in E.
  destruct E as ((bx & nx & ->) & (b0 & rest & Hgx')).
  rewrite Hgx in Hgx'; injection Hgx' as _ -> _ _.
  exists bx, nx, b', m; repeat split; reflexivity.
Qed.

Lemma shape_HierarchicalAggregation_forward_sum (i o b1 b2 b3 b4 o1 o2 o3 o4 : nat)
    (r : shape) :
  HierarchicalAggregation_forward i o [[b1; o1; 3]; [b2; o2; 3]; [b3; o3; 3]; [b4; o4; 3]]
  = Some r ->
  o1 + o2 + o3 + o4 = i.
Proof.
  unfold HierarchicalAggregation_forward; intros H; inv_bind H.
  cbn [cat_dim1 cat_dim1_from] in E.
  repeat match type of E with
         | (if ?c then _ else _) = Some _ => destruct c; [| discriminate E]
         end.
  injection E as <-.
  apply shape_VNLinearLeakyReLU_inv in H; destruct H as (b & rest & Hs & _).
  injection Hs as _ Hc _; exact Hc.
Qed.

(** A construction and forward pass that complete fix the channel widths:
    the first block reads one channel (the axis that [unsqueeze(1)] adds),
    every later block reads as many channels as the block before it wrote,
    and, since the aggregation layer is built for the sum over all of
    [vngcnn_out] but is fed the four block outputs only, the entries of
    [vngcnn_out] beyond the fourth sum to zero. *)
Theorem forward_channel_constraints (args : Args) (x y : shape) (r : shape * shape) :
  HEGN_run args x y = Some r ->
  nth_error (vngcnn_in args) 0 = Some 1
  /\ nth_error (vngcnn_in args) 1 = nth_error (vngcnn_out args) 0
  /\ nth_error (vngcnn_in args) 2 = nth_error (vngcnn_out args) 1
  /\ nth_error (vngcnn_in args) 3 = nth_error (vngcnn_out args) 2
  /\ list_sum (skipn 4 (vngcnn_out args)) = 0.
Proof.
  unfold HEGN_run; intros H; inv_bind H.
  rename h into self, E into Hinit.
  destruct (shape_HEGN_forward_num_blocks _ _ _ _ H) as [Hnb _].
  unfold HEGN_forward in H.
  do 2 inv_bind H.
  inv_bind H; destruct p as [fx1 fy1].
  inv_bind H; destruct p as [fx2 fy2].
  inv_bind H; destruct p as [fx3 fy3].
  inv_bind H; destruct p as [fx4 fy4].
  repeat match goal with
         | Hb : block _ _ _ _ _ = Some _ |- _ =>
             apply shape_block_channels in Hb;
             destruct Hb as (? & ? & ? & ? & ? & ? & ?)
         end.
  subst.
  unfold range in H; rewrite Hnb in H.
  change (Z.to_nat 4) with 4 in H.
  cbn [seq pool_blocks nth_error mean_pool reduce_last removelast set_nth bind] in H.
  inv_bind H; clear H.
  match goal with
  | Ha : HierarchicalAggregation_forward _ _ _ = Some _ |- _ =>
      apply shape_HierarchicalAggregation_forward_sum in Ha; rename Ha into Hsum
  end.
  unfold HEGN_init in Hinit; cbv zeta in Hinit.
  repeat match goal with
         | Hs : _ :: _ = _ :: _ |- _ => injection Hs as ?; subst
         end.
  destruct (vngcnn_in args) as [|a0 [|a1 [|a2 [|a3 vin]]]];
    try (destruct (nth_error (vngcnn_out args) 0), (nth_error (n_knn args) 0);
         discriminate Hinit).
  all: cbn [nth_error bind] in Hinit.
  all: destruct (vngcnn_out args) as [|o0 [|o1 [|o2 [|o3 vout]]]];
    cbn [nth_error bind] in Hinit; try discriminate Hinit.
  all: destruct (n_knn args) as [|k0 [|k1 [|k2 [|k3 knn]]]];
    cbn [nth_error bind] in Hinit; try discriminate Hinit.
  inv_bind Hinit; injection Hinit as <-.
  cbn [feature_extraction1 feature_extraction2 feature_extraction3 feature_extraction4
       hierarchical_in hierarchical_out efe_in efe_out] in *.
  cbn [nth_error skipn] in *.
  assert (Ha0 : a0 = 1).
  { match goal with
    | Hu : unsqueeze 1 x = Some _ |- _ =>
        unfold unsqueeze in Hu; destruct x as [|xb xs]; [discriminate Hu |];
        cbn [length Nat.leb firstn skipn app] in Hu; injection Hu as _ Hu _; congruence
    end. }
  assert (Hrest : list_sum vout = 0) by (cbn [list_sum fold_right] in Hsum; lia).
  subst; repeat split; assumption.
Qed.

Lemma forward_channel_constraints_witness :
  nth_error (vngcnn_in four_block_args) 0 = Some 1
  /\ nth_error (vngcnn_in four_block_args) 1 = nth_error (vngcnn_out four_block_args) 0
  /\ nth_error (vngcnn_in four_block_args) 2 = nth_error (vngcnn_out four_block_args) 1
  /\ nth_error (vngcnn_in four_block_args) 3 = nth_error (vngcnn_out four_block_args) 2
  /\ list_sum (skipn 4 (vngcnn_out four_block_args)) = 0.
Proof.
  apply (forward_channel_constraints four_block_args [2; 3; 1024] [2; 3; 1024]
           ([2; 3; 3], [2; 3])).
  vm_compute; reflexivity.
Defined.

End ShapeConfiguration.


(** ** CrossContext: the head width on tensors that are not empty *)

Section ShapeCrossContext.

Import Shape.
Local Open Scope nat_scope.

(** On a pair of [[b, C, 3, n]] tensors with at least one batch element, one
    sample and [k >= 1] neighbours among the [n] samples, the module returns
    only if the head width is not zero and divides the channel count [C]:
    the [view] of line 59 keeps the element count. *)
Theorem cross_context_head_width_divides (C m k b n : nat) (r : shape) :
  0 < b -> 0 < n -> 0 < k -> k <= n ->
  CrossContext_forward C m k [b; C; 3; n] [b; C; 3; n] = Some r ->
  m <> 0 /\ C / m * m = C.
Proof.
  intros Hb Hn Hk Hkn H; unfold CrossContext_forward in H.
  rewrite shape_VNLinearLeakyReLU_ok in H; cbn [bind] in H.
  change (channel_equi_vec_normalize [b; C; 3; n]) with (Some [b; C; 3; n]) in H;
    cbn [bind] in H.
  rewrite (shape_get_graph_feature_ok b C n k Hkn) in H; cbn [bind] in H.
  rewrite shape_VNLinearLeakyReLU_ok in H; cbn [bind] in H.
  change (channel_equi_vec_normalize [b; C; 3; n; k]) with (Some [b; C; 3; n; k]) in H;
    cbn [bind] in H.
  change (unsqueeze (length [b; C; 3; n]) [b; C; 3; n]) with (Some [b; C; 3; n; 1]) in H;
    cbn [bind] in H.
  rewrite broadcast_query in H; cbn [bind] in H.
  change (reduce_dim 2 [b; C; 3; n; k]) with (Some [b; C; n; k]) in H; cbn [bind] in H.
  destruct m as [|m']; [discriminate H |].
  cbv zeta in H; unfold view at 1 in H.
  destruct (numel [b; C; n; k] =? numel [b; C / S m'; S m'; n; k]) eqn:Enum;
    [| discriminate H].
  apply Nat.eqb_eq in Enum; unfold numel in Enum; cbn [fold_right] in Enum.
  split; [discriminate |].
  rewrite !Nat.mul_1_r in Enum.
  apply Nat.mul_cancel_l in Enum; [| lia].
  replace (C / S m' * (S m' * (n * k))) with (C / S m' * S m' * (n * k)) in Enum by ring.
  apply Nat.mul_cancel_r in Enum; [| nia].
  symmetry; exact Enum.
Qed.

Lemma cross_context_head_width_divides_witness :
  CrossContext_forward 32 16 2 [1; 32; 3; 8] [1; 32; 3; 8] = Some [1; 32; 3; 8]
  /\ 16 <> 0 /\ 32 / 16 * 16 = 32.
Proof.
  split; [vm_compute; reflexivity |].
  apply (cross_context_head_width_divides 32 16 2 1 8 [1; 32; 3; 8]).
  - lia.
  - lia.
  - lia.
  - lia.
  - vm_compute; reflexivity.
Defined.

End ShapeCrossContext.
